(** * preInitSetup: the pre-initialisation pipeline of the CLI

    Source: packages/amplify-cli/src/init-steps/preInitSetup.ts

    The module is a sequence of shell invocations, file-system calls and
    calls into collaborators, threaded through one mutable context
    object.  It is embedded here as a small process monad over an explicit
    state: the object store holding the context, the chronological trace
    of externally visible events, the queue of exits scheduled for the
    next tick, and the initialisation flag of the feature-flag store.
    Everything the environment decides (directory listing, outcome of a
    subprocess, detected package manager, scheduling of the tick queue)
    is read from a [World]. *)

From Stdlib Require Import Ascii String List ZArith Bool Arith Lia.
Import ListNotations.
Local Open Scope string_scope.
Local Open Scope list_scope.

Set Implicit Arguments.

(** ** Data model *)

(** [context.exeInfo.localEnvInfo] *)
Record LocalEnvInfo : Type := mkLocalEnvInfo {
  projectPath : string;
  defaultEditor : string;
  envName : string
}.

(** [context.parameters.options]: [app] is absent or a string,
    [quickstart] is a flag. *)
Record Options : Type := mkOptions {
  app : option string;
  quickstart : bool
}.

(** [context.exeInfo.inputParams.amplify]; [amplify_others] stands for
    its other properties (providers, front end, ...). *)
Record AmplifyParams : Type := mkAmplifyParams {
  amplify_envName : option string;
  amplify_others : list (string * string)
}.

(** [context.exeInfo.inputParams]; [inputParams_others] stands for its
    other properties. *)
Record InputParams : Type := mkInputParams {
  amplify : AmplifyParams;
  inputParams_others : list (string * string)
}.

(** [context.exeInfo]; [exeInfo_others] stands for its other
    properties. *)
Record ExeInfo : Type := mkExeInfo {
  localEnvInfo : option LocalEnvInfo;
  inputParams : InputParams;
  exeInfo_others : list (string * string)
}.

(** The [$TSContext] object, restricted to the properties this module
    reads or writes; [others] stands for every other property. *)
Record TSContext : Type := mkTSContext {
  options : Options;
  exeInfo : ExeInfo;
  others : list (string * string)
}.

(** [context.exeInfo.localEnvInfo = v]: the property is assigned on the
    [exeInfo] object, whose other properties stay. *)
Definition set_localEnvInfo (v : LocalEnvInfo) (c : TSContext) : TSContext :=
  mkTSContext (options c)
    (mkExeInfo (Some v) (inputParams (exeInfo c))
       (exeInfo_others (exeInfo c)))
    (others c).

(** [context.exeInfo.inputParams.amplify.envName = v]: the property is
    assigned on the [amplify] object; its other properties and those of
    the objects around it stay. *)
Definition set_inputParams_amplify_envName (v : string) (c : TSContext)
  : TSContext :=
  mkTSContext (options c)
    (mkExeInfo (localEnvInfo (exeInfo c))
       (mkInputParams
          (mkAmplifyParams (Some v)
             (amplify_others (amplify (inputParams (exeInfo c)))))
          (inputParams_others (inputParams (exeInfo c))))
       (exeInfo_others (exeInfo c)))
    (others c).

(** JavaScript truthiness of a value that is [undefined] or a string. *)
Definition truthy (v : option string) : bool :=
  match v with
  | None => false
  | Some EmptyString => false
  | Some (String _ _) => true
  end.

(** Objects are passed by reference. *)
Definition ref : Type := nat.

Inductive Stdio : Type := stdio_ignore | stdio_inherit.

Inductive Error : Type :=
| UrlParseError (input : string)
| ExecError (cmd : string)
| NonEmptyDirectoryError (msg : string)
| FsError (path : string)
| CollaboratorError (who : string).

(** Externally visible events, in the order the process performs them. *)
Inductive Event : Type :=
| print_warning (msg : string)
| print_error (msg : string)
| usageData_emitError (e : Error)
| usageData_emitSuccess
| exit_scheduled (code : Z)
| execSync (cmd : string) (io : Stdio)
| generateLocalEnvInfoFile (snapshot : TSContext)
| insertAmplifyIgnore (gitIgnorePath : string)
| fs_copy (src dst : string)
| FeatureFlags_initialize (envInfo : option LocalEnvInfo) (useNewDefaults : bool)
| FeatureFlags_ensureDefaultFeatureFlags (newProject : bool).

(** What the environment decides.  [fs_readdirSync] is [None] for a
    directory that cannot be listed (removed, not readable): the call
    throws. *)
Record World : Type := mkWorld {
  process_cwd : string;
  dirname : string;
  path_join : list string -> string;
  fs_readdirSync : string -> option (list string);
  url_parse_throws : string -> bool;
  execSync_fails : string -> bool;
  getPackageManager : option string;
  normalizePackageManagerForOS : option string -> option string;
  generateLocalEnvInfoFile_fails : bool;
  insertAmplifyIgnore_fails : bool;
  fs_copy_fails : bool;
  FeatureFlags_initialize_fails : bool;
  FeatureFlags_ensureDefaultFeatureFlags_fails : bool;
  getGitIgnoreFilePath : string -> string;
  getAmplifyDirPath : string -> string;
  (** does the tick queue run before the continuation of the n-th await *)
  tick_before_continuation : nat -> bool
}.

Record State : Type := mkState {
  heap : ref -> TSContext;
  trace : list Event;
  nextTickQueue : list Z;
  awaits : nat;
  FeatureFlags_isInitialized : bool
}.

Definition with_heap (h : ref -> TSContext) (s : State) : State :=
  mkState h (trace s) (nextTickQueue s) (awaits s)
    (FeatureFlags_isInitialized s).

Definition heap_set (r : ref) (v : TSContext) (h : ref -> TSContext)
  : ref -> TSContext :=
  fun r' => if Nat.eqb r' r then v else h r'.

(** ** The process monad *)

Inductive Outcome (A : Type) : Type :=
| Returned (a : A) (s : State)
| Thrown (e : Error) (s : State)
| Exited (code : Z) (s : State).

Arguments Thrown {A} e s.
Arguments Exited {A} code s.

Definition Proc (A : Type) : Type := State -> Outcome A.

Definition final {A} (o : Outcome A) : State :=
  match o with
  | Returned _ s => s
  | Thrown _ s => s
  | Exited _ s => s
  end.

Definition ret {A} (a : A) : Proc A := fun s => Returned a s.

Definition bind {A B} (m : Proc A) (k : A -> Proc B) : Proc B :=
  fun s =>
    match m s with
    | Returned a s' => k a s'
    | Thrown e s' => Thrown e s'
    | Exited c s' => Exited c s'
    end.

Definition throw {A} (e : Error) : Proc A := fun s => Thrown e s.

(** [try { m } catch (e) { h e }] *)
Definition try_catch {A} (m : Proc A) (h : Error -> Proc A) : Proc A :=
  fun s =>
    match m s with
    | Returned a s' => Returned a s'
    | Thrown e s' => h e s'
    | Exited c s' => Exited c s'
    end.

Declare Scope proc_scope.
Delimit Scope proc_scope with proc.
Notation "x <- m ;; k" := (bind m (fun x => k))
  (at level 61, m at next level, right associativity) : proc_scope.
Notation "m ;; k" := (bind m (fun _ => k))
  (at level 61, right associativity) : proc_scope.
Local Open Scope proc_scope.

Definition emit (ev : Event) : Proc unit :=
  fun s =>
    Returned tt
      (mkState (heap s) (trace s ++ [ev]) (nextTickQueue s) (awaits s)
         (FeatureFlags_isInitialized s)).

Definition read (r : ref) : Proc TSContext :=
  fun s => Returned (heap s r) s.

Definition modify (r : ref) (f : TSContext -> TSContext) : Proc unit :=
  fun s => Returned tt (with_heap (heap_set r (f (heap s r)) (heap s)) s).

(** Modelled from the spec: [exitOnNextTick] of amplify-cli-core, which
    is not part of this file.  Process termination is "explicitly
    deferred to the next scheduling tick rather than immediate": the call
    queues the exit and returns to its caller. *)
Definition exitOnNextTick (code : Z) : Proc unit :=
  fun s =>
    Returned tt
      (mkState (heap s) (trace s ++ [exit_scheduled code])
         (nextTickQueue s ++ [code]) (awaits s)
         (FeatureFlags_isInitialized s)).

Section Program.

Variable w : World.

(** A suspension point.  When an exit is queued and the tick queue runs
    before the continuation, the process terminates with the code queued
    first; otherwise the continuation resumes. *)
Definition yield : Proc unit :=
  fun s =>
    let s' := mkState (heap s) (trace s) (nextTickQueue s) (S (awaits s))
                (FeatureFlags_isInitialized s) in
    match nextTickQueue s with
    | [] => Returned tt s'
    | code :: _ =>
        if tick_before_continuation w (awaits s) then Exited code s'
        else Returned tt s'
    end.

(** [await m]: run the callee up to its result, suspend, then resume with
    the value or re-raise the rejection. *)
Definition await {A} (m : Proc A) : Proc A :=
  fun s =>
    match m s with
    | Returned a s' => (yield ;; ret a) s'
    | Thrown e s' => (yield ;; throw e) s'
    | Exited c s' => Exited c s'
    end.

(** [url.parse(s)] *)
Definition url_parse (input : string) : Proc unit :=
  fun s =>
    if url_parse_throws w input then Thrown (UrlParseError input) s
    else Returned tt s.

(** [execSync(cmd, { stdio })]: a non-zero exit of the tool throws. *)
Definition child_process_execSync (cmd : string) (io : Stdio) : Proc unit :=
  emit (execSync cmd io) ;;
  if execSync_fails w cmd then throw (ExecError cmd) else ret tt.

(** A call into a collaborator that performs [ev] and may fail. *)
Definition collaborator (ev : Event) (fails : bool) (who : string)
  : Proc unit :=
  emit ev ;;
  if fails then throw (CollaboratorError who) else ret tt.

(** *** validateGithubRepo (lines 45-55) *)
Definition validateGithubRepo (context : ref) (repoUrl : string) : Proc unit :=
  try_catch
    (url_parse repoUrl ;;
     child_process_execSync ("git ls-remote " ++ repoUrl) stdio_ignore)
    (fun e =>
       emit (print_error "Invalid remote github url") ;;
       emit (usageData_emitError e) ;;
       exitOnNextTick 1).

Definition nonEmptyDirectoryMessage : string :=
  "Please ensure you run this command in an empty directory".

(** [fs.readdirSync(path)]: throws when the directory cannot be listed. *)
Definition fs_readdirSync_call (path : string) : Proc (list string) :=
  fun s =>
    match fs_readdirSync w path with
    | Some files => Returned files s
    | None => Thrown (FsError path) s
    end.

(** *** cloneRepo (lines 62-78) *)
Definition cloneRepo (context : ref) (repoUrl : string) : Proc unit :=
  files <- fs_readdirSync_call (process_cwd w) ;;
  (if Nat.ltb 0 (List.length files) then
     let errMessage := nonEmptyDirectoryMessage in
     emit (print_error errMessage) ;;
     emit (usageData_emitError (NonEmptyDirectoryError errMessage)) ;;
     exitOnNextTick 1
   else ret tt) ;;
  try_catch
    (child_process_execSync ("git clone " ++ repoUrl ++ " .") stdio_inherit)
    (fun e =>
       emit (usageData_emitError e) ;;
       exitOnNextTick 1).

(** *** installPackage (lines 85-91) *)
Definition installPackage : Proc unit :=
  packageManager <- await (ret (getPackageManager w)) ;;
  normalizedPackageManager <-
    await (ret (normalizePackageManagerForOS w packageManager)) ;;
  match normalizedPackageManager with
  | Some name =>
      if truthy normalizedPackageManager
      then child_process_execSync (name ++ " install") stdio_inherit
      else ret tt
  | None => ret tt
  end.

(** Modelled from the spec: [generateLocalEnvInfoFile] of s9-onSuccess,
    the "write local env info" collaborator.  It receives the context and
    persists what the context holds at the time of the call; it may
    fail. *)
Definition generateLocalEnvInfoFile_call (context : ref) : Proc unit :=
  c <- read context ;;
  collaborator (generateLocalEnvInfoFile c)
    (generateLocalEnvInfoFile_fails w) "generateLocalEnvInfoFile".

(** *** setLocalEnvDefaults (lines 98-115) *)
Definition setLocalEnvDefaults (context : ref) : Proc unit :=
  let projectPath := process_cwd w in
  let defaultEditor := "vscode" in
  let envName := "sampledev" in
  emit (print_warning ("Setting default editor to " ++ defaultEditor)) ;;
  emit (print_warning ("Setting environment to " ++ envName)) ;;
  emit (print_warning
          "Run amplify configure project to change the default configuration later") ;;
  modify context
    (set_localEnvInfo (mkLocalEnvInfo projectPath defaultEditor envName)) ;;
  modify context (set_inputParams_amplify_envName envName) ;;
  await (generateLocalEnvInfoFile_call context).

(** Modelled from the spec: [FeatureFlags.initialize] of amplify-cli-core.
    The store is a process-wide singleton that reports itself initialised
    once initialisation has completed; the environment provider is a
    callback, so the record is read from the context when the store asks
    for it, here during initialisation. *)
Definition FeatureFlags_initialize_call (getEnvInfo : Proc (option LocalEnvInfo))
    (useNewDefaults : bool) : Proc unit :=
  info <- getEnvInfo ;;
  collaborator (FeatureFlags_initialize info useNewDefaults)
    (FeatureFlags_initialize_fails w) "FeatureFlags.initialize" ;;
  fun s =>
    Returned tt
      (mkState (heap s) (trace s) (nextTickQueue s) (awaits s) true).

(** [FeatureFlags.isInitialized()] *)
Definition FeatureFlags_isInitialized_call : Proc bool :=
  fun s => Returned (FeatureFlags_isInitialized s) s.

(** *** createAmplifySkeleton (lines 120-140) *)
Definition createAmplifySkeleton (context : ref) : Proc unit :=
  collaborator
    (insertAmplifyIgnore (getGitIgnoreFilePath w (process_cwd w)))
    (insertAmplifyIgnore_fails w) "insertAmplifyIgnore" ;;
  let skeletonLocalDir :=
    path_join w [dirname w; ".."; ".."; "templates"; "amplify-skeleton"] in
  let skeletonProjectDir :=
    path_join w [getAmplifyDirPath w (process_cwd w)] in
  await (collaborator (fs_copy skeletonLocalDir skeletonProjectDir)
           (fs_copy_fails w) "fs.copy") ;;
  let getEnvInfo : Proc (option LocalEnvInfo) :=
    c <- read context ;; ret (localEnvInfo (exeInfo c)) in
  initialized <- FeatureFlags_isInitialized_call ;;
  (if negb initialized
   then await (FeatureFlags_initialize_call getEnvInfo true)
   else ret tt) ;;
  await (collaborator (FeatureFlags_ensureDefaultFeatureFlags true)
           (FeatureFlags_ensureDefaultFeatureFlags_fails w)
           "FeatureFlags.ensureDefaultFeatureFlags").

Definition sampleAppNote : string :=
  "Note: Amplify does not have knowledge of the url provided".

(** *** preInitSetup (lines 18-37) *)
Definition preInitSetup (context : ref) : Proc ref :=
  c <- read context ;;
  (match app (options c) with
   | Some repoUrl =>
       if truthy (app (options c)) then
         emit (print_warning sampleAppNote) ;;
         await (validateGithubRepo context repoUrl) ;;
         await (cloneRepo context repoUrl) ;;
         await installPackage ;;
         await (setLocalEnvDefaults context)
       else ret tt
   | None => ret tt
   end) ;;
  c' <- read context ;;
  (if quickstart (options c') then
     await (createAmplifySkeleton context) ;;
     emit usageData_emitSuccess ;;
     exitOnNextTick 0
   else ret tt) ;;
  ret context.

End Program.

(** ** Observations on traces *)

(** The commands handed to [execSync], in order. *)
Fixpoint executed (t : list Event) : list string :=
  match t with
  | [] => []
  | execSync cmd _ :: t' => cmd :: executed t'
  | _ :: t' => executed t'
  end.

(** The messages printed with [context.print.error], in order. *)
Fixpoint printed_errors (t : list Event) : list string :=
  match t with
  | [] => []
  | print_error msg :: t' => msg :: printed_errors t'
  | _ :: t' => printed_errors t'
  end.

(** The errors handed to [usageData.emitError], in order. *)
Fixpoint emitted_errors (t : list Event) : list Error :=
  match t with
  | [] => []
  | usageData_emitError e :: t' => e :: emitted_errors t'
  | _ :: t' => emitted_errors t'
  end.

Definition is_initialize (ev : Event) : bool :=
  match ev with FeatureFlags_initialize _ _ => true | _ => false end.

Definition is_ensureDefaults (ev : Event) : bool :=
  match ev with FeatureFlags_ensureDefaultFeatureFlags _ => true | _ => false end.

Definition is_success (ev : Event) : bool :=
  match ev with usageData_emitSuccess => true | _ => false end.

Definition count (p : Event -> bool) (t : list Event) : nat :=
  List.length (filter p t).

(** ** Sample environments, used to run the program on concrete inputs *)

(** The segments of a path, split at its slashes. *)
Fixpoint path_segments (p current : string) : list string :=
  match p with
  | EmptyString => [current]
  | String c rest =>
      if Ascii.eqb c "/"%char then current :: path_segments rest ""
      else path_segments rest (current ++ String c "")
  end.

(** Drops empty and "." segments and lets ".." remove the segment before
    it; [kept] holds the segments kept so far, last first. *)
Fixpoint resolve_segments (segments kept : list string) : list string :=
  match segments with
  | [] => rev kept
  | segment :: rest =>
      if (String.eqb segment "" || String.eqb segment ".")%bool
      then resolve_segments rest kept
      else if String.eqb segment ".."
           then resolve_segments rest (tl kept)
           else resolve_segments rest (segment :: kept)
  end.

(** [path.join] on absolute POSIX paths: joins with slashes and
    normalizes the result. *)
Definition posix_join (parts : list string) : string :=
  let joined := String.concat "/" parts in
  let body :=
    String.concat "/" (resolve_segments (path_segments joined "") []) in
  if String.prefix "/" joined then ("/" ++ body)%string else body.

Definition sample_world (files : list string) (fails : string -> bool)
    (pm : option string) (tick : bool) : World :=
  mkWorld "/home/dev/app" "/cli/lib/init-steps" posix_join
    (fun _ => Some files) (fun _ => false) fails pm (fun m => m)
    false false false false false
    (fun p => (p ++ "/.gitignore")%string)
    (fun p => (p ++ "/amplify")%string)
    (fun _ => tick).

Definition fresh_context (a : option string) (q : bool) : TSContext :=
  mkTSContext (mkOptions a q)
    (mkExeInfo None (mkInputParams (mkAmplifyParams None []) []) []) [].

Definition fresh_state (a : option string) (q : bool) : State :=
  mkState (fun _ => fresh_context a q) [] [] 0 false.

Definition every_command_fails : string -> bool := fun _ => true.
Definition no_command_fails : string -> bool := fun _ => false.

Definition sampleRepo : string := "https://github.com/x/y.git".


(** ** Locally handled failures *)

(** The validator fails when the url does not parse or the remote
    listing does not succeed. *)
Definition validation_fails (w : World) (repoUrl : string) : bool :=
  url_parse_throws w repoUrl
  || execSync_fails w ("git ls-remote " ++ repoUrl).

Definition cloneCommand (repoUrl : string) : string :=
  "git clone " ++ repoUrl ++ " .".

(** A failure is handled locally when the step returns to its caller
    having printed an error message, emitted an error to telemetry and
    queued the exit with code 1. *)
Definition handled_locally (before : State) (o : Outcome unit) : Prop :=
  (exists s', o = Returned tt s')
  /\ printed_errors (trace (final o)) <> printed_errors (trace before)
  /\ emitted_errors (trace (final o)) <> emitted_errors (trace before)
  /\ In 1%Z (nextTickQueue (final o)).

(** An empty directory and a [git] that fails. *)
Definition world_clone_fails : World :=
  sample_world [] every_command_fails None true.

(** A directory with one file, an unreachable remote and a [git] that
    fails. *)
Definition world_all_fail : World :=
  sample_world ["README.md"] every_command_fails None true.

(** ** Reasoning about outcomes *)

(** [satisfies m s Qr Qt Qe]: run from [s], the computation [m] ends in an
    outcome that meets the postcondition of its kind. *)
Definition satisfies {A} (m : Proc A) (s : State)
    (Qr : A -> State -> Prop) (Qt : Error -> State -> Prop)
    (Qe : Z -> State -> Prop) : Prop :=
  match m s with
  | Returned a s' => Qr a s'
  | Thrown e s' => Qt e s'
  | Exited c s' => Qe c s'
  end.

(** The state after one suspension point. *)
Definition bump (s : State) : State :=
  mkState (heap s) (trace s) (nextTickQueue s) (S (awaits s))
    (FeatureFlags_isInitialized s).

(** The record [setLocalEnvDefaults] builds. *)
Definition sample_defaults (w : World) : LocalEnvInfo :=
  mkLocalEnvInfo (process_cwd w) "vscode" "sampledev".

(** The context after the two writes of [setLocalEnvDefaults]. *)
Definition with_sample_defaults (w : World) (c : TSContext) : TSContext :=
  set_inputParams_amplify_envName "sampledev"
    (set_localEnvInfo (sample_defaults w) c).

(** The local environment record an event reads from the context, for the
    two events that read it. *)
Definition record_read (ev : Event) : option (option LocalEnvInfo) :=
  match ev with
  | generateLocalEnvInfoFile snapshot => Some (localEnvInfo (exeInfo snapshot))
  | FeatureFlags_initialize info _ => Some info
  | _ => None
  end.

(** A step is quiet when it leaves the object store and the feature-flag
    store alone and adds to the trace only events that do not read the
    local environment record. *)
Definition quiet (s s' : State) : Prop :=
  heap s' = heap s
  /\ FeatureFlags_isInitialized s' = FeatureFlags_isInitialized s
  /\ exists evs, trace s' = trace s ++ evs
                 /\ Forall (fun ev => record_read ev = None) evs.

(** The context [preInitSetup] hands back: the two writes of
    [setLocalEnvDefaults] on the sample-app path, nothing otherwise. *)
Definition context_after (w : World) (c : TSContext) : TSContext :=
  if truthy (app (options c)) then with_sample_defaults w c else c.

(** ** The record read by persistence and by feature-flag initialisation *)

(** The event reads a record that is there. *)
Definition reads_populated (ev : Event) : Prop :=
  forall info, record_read ev = Some info -> info <> None.

(** The event reads the record built by [setLocalEnvDefaults]. *)
Definition reads_sample_defaults (w : World) (ev : Event) : Prop :=
  forall info, record_read ev = Some info -> info = Some (sample_defaults w).

(** [s'] extends the trace of [s] by events that all satisfy [P]. *)
Definition adds (P : Event -> Prop) (s s' : State) : Prop :=
  exists evs, trace s' = trace s ++ evs /\ Forall P evs.

(** Everything succeeds and the tick queue runs first. *)
Definition world_all_well : World :=
  sample_world [] no_command_fails (Some "npm") true.

(** ** Failing runs of the pipeline *)

(** An empty directory, a [git] that fails on every command, and
    continuations that resume before the tick queue runs (the caller is
    itself the continuation of a promise). *)
Definition world_unreachable_remote : World :=
  sample_world [] every_command_fails None false.

Definition only_clone_fails : string -> bool :=
  fun cmd => String.prefix "git clone" cmd.

(** A directory that already holds a manifest: the remote is reachable,
    [git clone] refuses the directory, [npm] is detected, and
    continuations resume before the tick queue runs. *)
Definition world_occupied_directory : World :=
  sample_world ["package.json"] only_clone_fails (Some "npm") false.

Definition only_install_fails : string -> bool :=
  fun cmd => String.eqb cmd "npm install".

(** Everything succeeds up to [npm install], which fails. *)
Definition world_install_fails : World :=
  sample_world [] only_install_fails (Some "npm") true.

(** ** Repeated skeleton generation *)

(** Successive awaited invocations of the Skeleton Generator within one
    process, one per context handed in; a failure that propagates out of
    an invocation ends the sequence. *)
Fixpoint invocations (w : World) (contexts : list ref) : Proc unit :=
  match contexts with
  | [] => ret tt
  | context :: rest =>
      await w (createAmplifySkeleton w context) ;; invocations w rest
  end.

(** How many initialisations a run from [s] may still perform. *)
Definition initializations_left (s : State) : nat :=
  if FeatureFlags_isInitialized s then 0 else 1.

(** ** Quickstart *)

(** The copy of the skeleton template into the project's configuration
    directory. *)
Definition skeletonCopy (w : World) : Event :=
  fs_copy
    (path_join w [dirname w; ".."; ".."; "templates"; "amplify-skeleton"])
    (path_join w [getAmplifyDirPath w (process_cwd w)]).

(** What a successful quickstart leaves behind: the skeleton copied, the
    default feature flags ensured, one success event emitted during the
    run, and exit code 0 first in the tick queue. *)
Definition quickstart_succeeds (w : World) (s : State) (o : Outcome ref)
  : Prop :=
  In (skeletonCopy w) (trace (final o))
  /\ In (FeatureFlags_ensureDefaultFeatureFlags true) (trace (final o))
  /\ count is_success (trace (final o)) = count is_success (trace s) + 1
  /\ hd_error (nextTickQueue (final o)) = Some 0%Z.

(** The install step runs nothing or runs a command that succeeds. *)
Definition install_succeeds (w : World) : bool :=
  match normalizePackageManagerForOS w (getPackageManager w) with
  | Some name =>
      if truthy (Some name)
      then negb (execSync_fails w (name ++ " install"))
      else true
  | None => true
  end.

(** The sample-app branch is not taken, or every step of it succeeds. *)
Definition sample_app_completes (w : World) (a : option string) : bool :=
  match a with
  | Some repoUrl =>
      if truthy a
      then negb (validation_fails w repoUrl)
           && match fs_readdirSync w (process_cwd w) with
              | Some files => Nat.eqb (List.length files) 0
              | None => false
              end
           && negb (execSync_fails w (cloneCommand repoUrl))
           && install_succeeds w
           && negb (generateLocalEnvInfoFile_fails w)
      else true
  | None => true
  end.

(** Every collaborator of the Skeleton Generator succeeds. *)
Definition skeleton_completes (w : World) : bool :=
  negb (insertAmplifyIgnore_fails w)
  && negb (fs_copy_fails w)
  && negb (FeatureFlags_initialize_fails w)
  && negb (FeatureFlags_ensureDefaultFeatureFlags_fails w).

(** A step is calm for [context] when it queues no exit, emits no success
    event and leaves the options of the context alone. *)
Definition calm (context : ref) (s s' : State) : Prop :=
  nextTickQueue s' = nextTickQueue s
  /\ count is_success (trace s') = count is_success (trace s)
  /\ options (heap s' context) = options (heap s context).

(** ** Further sample environments *)

(** A url that [url.parse] rejects; every [git] command would fail too. *)
Definition world_unparseable_url : World :=
  mkWorld "/home/dev/app" "/cli/lib/init-steps" posix_join
    (fun _ => Some []) (fun _ => true) every_command_fails None
    (fun m => m)
    false false false false false
    (fun p => (p ++ "/.gitignore")%string)
    (fun p => (p ++ "/amplify")%string)
    (fun _ => false).

(** The subprocess the install step runs, if any. *)
Definition install_events (w : World) : list Event :=
  match normalizePackageManagerForOS w (getPackageManager w) with
  | Some name =>
      if truthy (Some name)
      then [execSync (name ++ " install") stdio_inherit]
      else []
  | None => []
  end.

(** What a complete run of the Skeleton Generator does, in order; the
    initialisation is there only when the store is not initialised yet. *)
Definition skeleton_events (w : World) (context : ref) (s : State)
  : list Event :=
  [insertAmplifyIgnore (getGitIgnoreFilePath w (process_cwd w));
   skeletonCopy w]
  ++ (if FeatureFlags_isInitialized s then []
      else [FeatureFlags_initialize
              (localEnvInfo (exeInfo (heap s context))) true])
  ++ [FeatureFlags_ensureDefaultFeatureFlags true].

(** Persistence fails; everything else succeeds. *)
Definition world_persistence_fails : World :=
  mkWorld "/home/dev/app" "/cli/lib/init-steps" posix_join
    (fun _ => Some []) (fun _ => false) no_command_fails (Some "npm")
    (fun m => m)
    true false false false false
    (fun p => (p ++ "/.gitignore")%string)
    (fun p => (p ++ "/amplify")%string)
    (fun _ => true).

(** A context that already holds a local environment and an environment
    name from an earlier project. *)
Definition configured_context : TSContext :=
  mkTSContext (mkOptions (Some sampleRepo) false)
    (mkExeInfo (Some (mkLocalEnvInfo "/old/place" "vim" "prod"))
       (mkInputParams
          (mkAmplifyParams (Some "prod") [("defaultEditor", "vim")])
          [("yes", "true")])
       [("awsConfigInfo", "profile")])
    [("usageData", "on")].

Definition configured_state : State :=
  mkState (fun _ => configured_context) [] [] 0 true.

(** ** Telemetry and exits *)

(** The exit code that goes with each telemetry event of a trace: 1 with
    an error, 0 with the success event. *)
Fixpoint telemetry_codes (t : list Event) : list Z :=
  match t with
  | [] => []
  | usageData_emitError _ :: t' => 1%Z :: telemetry_codes t'
  | usageData_emitSuccess :: t' => 0%Z :: telemetry_codes t'
  | _ :: t' => telemetry_codes t'
  end.

(** From [s] to [s'] the options of the context are kept, only exits with
    code 1 are queued, and each comes with one telemetry error. *)
Definition paired (context : ref) (s s' : State) : Prop :=
  options (heap s' context) = options (heap s context)
  /\ exists codes,
       nextTickQueue s' = nextTickQueue s ++ codes
       /\ telemetry_codes (trace s') = telemetry_codes (trace s) ++ codes
       /\ Forall (eq 1%Z) codes.

(** ** The commands of the pipeline *)

(** The probe is run unless the url does not parse. *)
Definition probe_commands (w : World) (repoUrl : string) : list string :=
  if url_parse_throws w repoUrl then []
  else [("git ls-remote " ++ repoUrl)%string].

(** The commands a full run of the sample-app branch hands to [execSync],
    in order; none when the app option is absent or empty. *)
Definition pipeline_commands (w : World) (a : option string) : list string :=
  match a with
  | Some repoUrl =>
      if truthy a
      then probe_commands w repoUrl
           ++ [cloneCommand repoUrl]
           ++ executed (install_events w)
      else []
  | None => []
  end.

(** From [s] to [s'] an initial part [done] of the commands [all] has been
    run, and nothing else. *)
Definition ran (all : list string) (s s' : State) : Prop :=
  exists done rest,
    all = done ++ rest
    /\ executed (trace s') = executed (trace s) ++ done.

(** From [s] to [s'] no command has been run. *)
Definition same_commands (s s' : State) : Prop :=
  executed (trace s') = executed (trace s).

(** A working directory that cannot be listed; everything else would
    succeed. *)
Definition world_unlistable_directory : World :=
  mkWorld "/home/dev/gone" "/cli/lib/init-steps" posix_join
    (fun _ => None) (fun _ => false) no_command_fails (Some "npm")
    (fun m => m)
    false false false false false
    (fun p => (p ++ "/.gitignore")%string)
    (fun p => (p ++ "/amplify")%string)
    (fun _ => true).

(** ** Where the Skeleton Generator stops *)

(** The position in [skeleton_events] of the first collaborator call that
    fails, if one does. *)
Definition first_failure (w : World) (s : State) : option nat :=
  if insertAmplifyIgnore_fails w then Some 1
  else if fs_copy_fails w then Some 2
  else if FeatureFlags_isInitialized s
       then if FeatureFlags_ensureDefaultFeatureFlags_fails w
            then Some 3 else None
       else if FeatureFlags_initialize_fails w then Some 3
            else if FeatureFlags_ensureDefaultFeatureFlags_fails w
                 then Some 4 else None.

(** The template copy fails; everything else succeeds. *)
Definition world_copy_fails : World :=
  mkWorld "/home/dev/app" "/cli/lib/init-steps" posix_join
    (fun _ => Some []) (fun _ => false) no_command_fails (Some "npm")
    (fun m => m)
    false false true false false
    (fun p => (p ++ "/.gitignore")%string)
    (fun p => (p ++ "/amplify")%string)
    (fun _ => true).
(** ** Basic facts *)

Lemma executed_app (a b : list Event) :
  executed (a ++ b) = executed a ++ executed b.
Proof.
  induction a as [|ev a IH]; simpl; [reflexivity|].
  destruct ev; simpl; rewrite IH; reflexivity.
Qed.

Lemma printed_errors_app (a b : list Event) :
  printed_errors (a ++ b) = printed_errors a ++ printed_errors b.
Proof.
  induction a as [|ev a IH]; simpl; [reflexivity|].
  destruct ev; simpl; rewrite IH; reflexivity.
Qed.

Lemma emitted_errors_app (a b : list Event) :
  emitted_errors (a ++ b) = emitted_errors a ++ emitted_errors b.
Proof.
  induction a as [|ev a IH]; simpl; [reflexivity|].
  destruct ev; simpl; rewrite IH; reflexivity.
Qed.

Lemma count_app (p : Event -> bool) (a b : list Event) :
  count p (a ++ b) = count p a + count p b.
Proof.
  unfold count. rewrite filter_app, length_app. reflexivity.
Qed.

Lemma heap_set_same (r : ref) (v : TSContext) (h : ref -> TSContext) :
  heap_set r v h r = v.
Proof. unfold heap_set. rewrite Nat.eqb_refl. reflexivity. Qed.

Lemma heap_set_other (r r' : ref) (v : TSContext) (h : ref -> TSContext) :
  r' <> r -> heap_set r v h r' = h r'.
Proof.
  intros Hne. unfold heap_set.
  destruct (Nat.eqb_spec r' r); [contradiction | reflexivity].
Qed.

(** Unfolds the monad and the primitives down to matches on what the
    world decides. *)
Ltac unfold_proc :=
  unfold await, yield, collaborator, child_process_execSync, url_parse,
    try_catch, bind, emit, exitOnNextTick, modify, read, throw, ret,
    with_heap in *.

(** Case analysis on the next thing the world decides. *)
Ltac world_case :=
  match goal with
  | |- context [execSync_fails ?w ?c] => destruct (execSync_fails w c) eqn:?
  | |- context [url_parse_throws ?w ?u] => destruct (url_parse_throws w u) eqn:?
  | |- context [tick_before_continuation ?w ?n] =>
      destruct (tick_before_continuation w n) eqn:?
  end.

#[local] Arguments String.append : simpl never.

(** ** cloneRepo and the non-empty directory *)

(** Run of [cloneRepo] in a directory that holds one file, with a [git]
    that refuses to clone into it. *)
Example cloneRepo_in_nonempty_directory :
  cloneRepo (sample_world ["package.json"] every_command_fails None true)
    0 sampleRepo (fresh_state (Some sampleRepo) false)
  = Returned tt
      (mkState (fun _ => fresh_context (Some sampleRepo) false)
         [print_error nonEmptyDirectoryMessage;
          usageData_emitError (NonEmptyDirectoryError nonEmptyDirectoryMessage);
          exit_scheduled 1;
          execSync "git clone https://github.com/x/y.git ." stdio_inherit;
          usageData_emitError
            (ExecError "git clone https://github.com/x/y.git .");
          exit_scheduled 1]
         [1%Z; 1%Z] 0 false).
Proof. reflexivity. Qed.

(** C1 (the code departs from the claim): whatever the working directory
    holds, once it has been listed [cloneRepo] hands the clone command to
    [execSync] exactly once.  The deferred exit queued for a non-empty
    directory does not end the function, so the clone is attempted there
    too.  Only when the listing itself throws is nothing run. *)
Theorem cloneRepo_runs_clone_in_any_directory :
  forall (w : World) (context : ref) (repoUrl : string) (s : State),
    executed (trace (final (cloneRepo w context repoUrl s)))
    = executed (trace s)
      ++ match fs_readdirSync w (process_cwd w) with
         | Some _ => [("git clone " ++ repoUrl ++ " .")%string]
         | None => []
         end.
Proof.
  intros w context repoUrl s.
  unfold cloneRepo, fs_readdirSync_call. unfold_proc. simpl.
  destruct (fs_readdirSync w (process_cwd w)) as [files|]; simpl;
    [|symmetry; apply app_nil_r].
  destruct (Nat.ltb 0 (List.length files));
    simpl; world_case;
    simpl; repeat rewrite executed_app; simpl;
    repeat rewrite app_nil_r; repeat rewrite <- app_assoc; reflexivity.
Qed.

(** ** setLocalEnvDefaults *)

(** C7: whatever the options and the environment, the initializer stores
    the record (cwd, "vscode", "sampledev") on the context and the
    environment name in the input parameters, after its three warnings,
    and only then hands the context to the persistence collaborator,
    which therefore sees both. *)
Theorem setLocalEnvDefaults_stores_fixed_defaults :
  forall (w : World) (context : ref) (s : State),
    let s' := final (setLocalEnvDefaults w context s) in
    let record := mkLocalEnvInfo (process_cwd w) "vscode" "sampledev" in
    localEnvInfo (exeInfo (heap s' context)) = Some record
    /\ amplify_envName (amplify (inputParams (exeInfo (heap s' context))))
       = Some "sampledev"
    /\ trace s'
       = trace s ++
         [print_warning "Setting default editor to vscode";
          print_warning "Setting environment to sampledev";
          print_warning
            "Run amplify configure project to change the default configuration later";
          generateLocalEnvInfoFile (heap s' context)].
Proof.
  intros w context s.
  unfold setLocalEnvDefaults, generateLocalEnvInfoFile_call. unfold_proc.
  simpl.
  destruct (generateLocalEnvInfoFile_fails w); simpl;
    destruct (nextTickQueue s) as [|code q]; simpl;
    try destruct (tick_before_continuation w (awaits s)); simpl;
    repeat rewrite heap_set_same; simpl;
    repeat rewrite <- app_assoc; simpl; auto.
Qed.

(** ** The three locally handled failures *)

Lemma validateGithubRepo_returns (w : World) (context : ref)
    (repoUrl : string) (s : State) :
  exists s', validateGithubRepo w context repoUrl s = Returned tt s'.
Proof.
  unfold validateGithubRepo. unfold_proc. simpl.
  repeat (world_case; simpl); eexists; reflexivity.
Qed.

Lemma cloneRepo_returns (w : World) (context : ref) (repoUrl : string)
    (s : State) (files : list string) :
  fs_readdirSync w (process_cwd w) = Some files ->
  exists s', cloneRepo w context repoUrl s = Returned tt s'.
Proof.
  intros Hlist. unfold cloneRepo, fs_readdirSync_call. unfold_proc.
  rewrite Hlist. simpl.
  destruct (Nat.ltb 0 (List.length files));
    simpl; world_case; simpl; eexists; reflexivity.
Qed.

(** The listing of the working directory is outside the [try]: when it
    throws, [cloneRepo] throws with nothing printed, emitted, queued or
    run. *)
Lemma cloneRepo_listing_throws (w : World) (context : ref)
    (repoUrl : string) (s : State) :
  fs_readdirSync w (process_cwd w) = None ->
  cloneRepo w context repoUrl s = Thrown (FsError (process_cwd w)) s.
Proof.
  intros Hlist. unfold cloneRepo, fs_readdirSync_call. unfold_proc.
  rewrite Hlist. reflexivity.
Qed.

(** What a failing validation leaves behind: the fixed message, one
    telemetry error and one queued exit, and nothing else but the probe. *)
Lemma validateGithubRepo_failure (w : World) (context : ref)
    (repoUrl : string) (s : State) :
  validation_fails w repoUrl = true ->
  let s' := final (validateGithubRepo w context repoUrl s) in
  printed_errors (trace s')
    = printed_errors (trace s) ++ ["Invalid remote github url"]
  /\ (exists e, emitted_errors (trace s') = emitted_errors (trace s) ++ [e])
  /\ nextTickQueue s' = nextTickQueue s ++ [1%Z]
  /\ heap s' = heap s.
Proof.
  unfold validation_fails, validateGithubRepo. unfold_proc. simpl.
  intros Hfail.
  destruct (url_parse_throws w repoUrl) eqn:Hparse; simpl in *.
  - repeat rewrite printed_errors_app; repeat rewrite emitted_errors_app.
    simpl. repeat rewrite app_nil_r. repeat split; eauto.
  - rewrite Hfail. simpl.
    repeat rewrite printed_errors_app; repeat rewrite emitted_errors_app.
    simpl. repeat rewrite app_nil_r. repeat split; eauto.
Qed.

(** A validation that succeeds prints nothing, emits nothing, queues no
    exit and leaves the context alone: its trace is the probe. *)
Lemma validateGithubRepo_success (w : World) (context : ref)
    (repoUrl : string) (s : State) :
  validation_fails w repoUrl = false ->
  validateGithubRepo w context repoUrl s
  = Returned tt
      (mkState (heap s)
         (trace s ++ [execSync ("git ls-remote " ++ repoUrl) stdio_ignore])
         (nextTickQueue s) (awaits s) (FeatureFlags_isInitialized s)).
Proof.
  unfold validation_fails, validateGithubRepo. unfold_proc. simpl.
  intros Hok. apply orb_false_elim in Hok. destruct Hok as [Hparse Hexec].
  rewrite Hparse. simpl. rewrite Hexec. reflexivity.
Qed.

(** C9 as stated fails, twice over.  A clone that fails in an empty
    directory is emitted to telemetry and queues exit 1, but this module
    prints no message for it.  And a working directory that cannot be
    listed makes [cloneRepo] throw to its caller: the listing is outside
    the [try]. *)
Lemma clone_step_failures_are_not_all_handled :
  (fs_readdirSync world_clone_fails (process_cwd world_clone_fails)
   = Some []
   /\ execSync_fails world_clone_fails (cloneCommand sampleRepo) = true
   /\ ~ handled_locally (fresh_state (Some sampleRepo) false)
          (cloneRepo world_clone_fails 0 sampleRepo
             (fresh_state (Some sampleRepo) false)))
  /\ (cloneRepo world_unlistable_directory 0 sampleRepo
         (fresh_state (Some sampleRepo) false)
       = Thrown (FsError "/home/dev/gone")
           (fresh_state (Some sampleRepo) false)
       /\ ~ handled_locally (fresh_state (Some sampleRepo) false)
              (cloneRepo world_unlistable_directory 0 sampleRepo
                 (fresh_state (Some sampleRepo) false))).
Proof.
  split.
  - repeat split.
    intros (_ & Hprinted & _). apply Hprinted. reflexivity.
  - split; [reflexivity|].
    intros ((s' & Hret) & _). discriminate Hret.
Qed.

(** C9 (amended): no exception escapes the validator, and none escapes
    [cloneRepo] once the working directory has been listed; a listing
    that throws is not caught and reaches the caller, with nothing
    printed, emitted or queued.  A failing validation is reported with
    the fixed message, emitted once and followed by a queued exit 1; so
    is a non-empty directory.  A failing clone is emitted and followed by
    a queued exit 1, and in an empty directory nothing is printed for
    it. *)
Theorem local_failures_are_handled :
  forall (w : World) (context : ref) (repoUrl : string) (s : State),
    let v := validateGithubRepo w context repoUrl s in
    let k := cloneRepo w context repoUrl s in
    (exists s', v = Returned tt s')
    /\ (forall files,
          fs_readdirSync w (process_cwd w) = Some files ->
          exists s', k = Returned tt s')
    /\ (fs_readdirSync w (process_cwd w) = None ->
        k = Thrown (FsError (process_cwd w)) s)
    /\ (validation_fails w repoUrl = true ->
        printed_errors (trace (final v))
          = printed_errors (trace s) ++ ["Invalid remote github url"]
        /\ (exists e,
              emitted_errors (trace (final v))
              = emitted_errors (trace s) ++ [e])
        /\ nextTickQueue (final v) = nextTickQueue s ++ [1%Z])
    /\ (forall files,
          fs_readdirSync w (process_cwd w) = Some files ->
          files <> [] ->
          printed_errors (trace (final k))
            = printed_errors (trace s) ++ [nonEmptyDirectoryMessage]
          /\ In (NonEmptyDirectoryError nonEmptyDirectoryMessage)
               (emitted_errors (trace (final k)))
          /\ In 1%Z (nextTickQueue (final k)))
    /\ (forall files,
          fs_readdirSync w (process_cwd w) = Some files ->
          execSync_fails w (cloneCommand repoUrl) = true ->
          In (ExecError (cloneCommand repoUrl))
            (emitted_errors (trace (final k)))
          /\ In 1%Z (nextTickQueue (final k))
          /\ (files = [] ->
              printed_errors (trace (final k)) = printed_errors (trace s))).
Proof.
  intros w context repoUrl s v k.
  split; [apply validateGithubRepo_returns|].
  split; [intros files Hlist; eapply cloneRepo_returns; exact Hlist|].
  split; [apply cloneRepo_listing_throws|].
  split.
  { intros Hfail.
    destruct (validateGithubRepo_failure w context repoUrl s Hfail)
      as (Hp & He & Hq & _).
    auto. }
  subst k. unfold cloneRepo, cloneCommand, fs_readdirSync_call.
  unfold_proc.
  split.
  - intros files Hlist Hne. rewrite Hlist. simpl.
    destruct files as [|f files]; [contradiction Hne; reflexivity|].
    simpl. world_case; simpl;
      repeat rewrite printed_errors_app; repeat rewrite emitted_errors_app;
      simpl; repeat rewrite app_nil_r;
      repeat split; auto 6 using in_or_app, in_eq, in_cons.
  - intros files Hlist Hclone. rewrite Hlist. simpl.
    destruct files as [|f files]; simpl; rewrite Hclone; simpl;
      repeat rewrite printed_errors_app; repeat rewrite emitted_errors_app;
      simpl; repeat rewrite app_nil_r;
      repeat split; auto 6 using in_or_app, in_eq, in_cons.
    discriminate.
Qed.

Lemma local_failures_are_handled_witness :
  let s := fresh_state (Some sampleRepo) false in
  let v := validateGithubRepo world_all_fail 0 sampleRepo s in
  let k := cloneRepo world_all_fail 0 sampleRepo s in
  printed_errors (trace (final v)) = ["Invalid remote github url"]
  /\ nextTickQueue (final v) = [1%Z]
  /\ (exists s', k = Returned tt s')
  /\ printed_errors (trace (final k)) = [nonEmptyDirectoryMessage]
  /\ In (ExecError (cloneCommand sampleRepo))
       (emitted_errors (trace (final k)))
  /\ In 1%Z (nextTickQueue (final k))
  /\ cloneRepo world_unlistable_directory 0 sampleRepo s
     = Thrown (FsError "/home/dev/gone") s.
Proof.
  intros s v k.
  destruct (local_failures_are_handled world_all_fail 0 sampleRepo s)
    as (_ & Hret & _ & Hv & Hd & Hc).
  destruct (Hv eq_refl) as (Hv1 & _ & Hv3).
  destruct (Hd ["README.md"] eq_refl) as (Hd1 & _ & _); [discriminate|].
  destruct (Hc ["README.md"] eq_refl eq_refl) as (Hc1 & Hc2 & _).
  destruct (local_failures_are_handled world_unlistable_directory 0
              sampleRepo s) as (_ & _ & Hthrow & _).
  split; [exact Hv1|]. split; [exact Hv3|].
  split; [exact (Hret ["README.md"] eq_refl)|].
  split; [exact Hd1|]. split; [exact Hc1|].
  split; [exact Hc2 | exact (Hthrow eq_refl)].
Defined.

(** ** installPackage *)

(** Scenario A's install step: [npm] is detected and installs. *)
Example installPackage_npm :
  trace (final (installPackage
                  (sample_world [] no_command_fails (Some "npm") true)
                  (fresh_state (Some sampleRepo) false)))
  = [execSync "npm install" stdio_inherit].
Proof. reflexivity. Qed.

(** C6: without a normalized package manager [installPackage] performs
    nothing at all and throws nothing; with a detected manager [M] whose
    normalized name is [name], it runs exactly [name install], once.  The
    two awaits of the function are where an exit queued before the call
    can end the process: with none queued the command always runs, and
    otherwise either it runs, once, or the process has ended at an await
    with nothing run. *)
Theorem installPackage_runs_the_normalized_install :
  forall (w : World) (s : State),
    (truthy (normalizePackageManagerForOS w (getPackageManager w)) = false ->
     trace (final (installPackage w s)) = trace s
     /\ forall e s', installPackage w s <> Thrown e s')
    /\ (forall M name : string,
          getPackageManager w = Some M ->
          normalizePackageManagerForOS w (Some M) = Some name ->
          truthy (Some name) = true ->
          (nextTickQueue s = [] ->
           trace (final (installPackage w s))
           = trace s ++ [execSync (name ++ " install") stdio_inherit]
           /\ executed (trace (final (installPackage w s)))
              = executed (trace s) ++ [(name ++ " install")%string])
          /\ (trace (final (installPackage w s))
              = trace s ++ [execSync (name ++ " install") stdio_inherit]
              \/ exists code s',
                   installPackage w s = Exited code s'
                   /\ In code (nextTickQueue s)
                   /\ trace s' = trace s)).
Proof.
  intros w s. split.
  - intros Hnone. unfold installPackage. unfold_proc. simpl.
    destruct (nextTickQueue s) as [|code q] eqn:Hq; simpl.
    + destruct (normalizePackageManagerForOS w (getPackageManager w))
        as [name|]; simpl in *.
      * rewrite Hnone. simpl. split; [reflexivity | discriminate].
      * split; [reflexivity | discriminate].
    + world_case; simpl; [split; [reflexivity | discriminate]|].
      world_case; simpl; [split; [reflexivity | discriminate]|].
      destruct (normalizePackageManagerForOS w (getPackageManager w))
        as [name|]; simpl in *.
      * rewrite Hnone. simpl. split; [reflexivity | discriminate].
      * split; [reflexivity | discriminate].
  - intros M name HM Hname Htruthy. split.
    + intros Hq.
      assert (Hrun :
        trace (final (installPackage w s))
        = trace s ++ [execSync (name ++ " install") stdio_inherit]).
      { unfold installPackage. unfold_proc. simpl.
        rewrite Hq. simpl. rewrite HM, Hname. rewrite Htruthy.
        simpl. world_case; reflexivity. }
      split; [exact Hrun|].
      rewrite Hrun, executed_app. reflexivity.
    + unfold installPackage. unfold_proc. simpl.
      destruct (nextTickQueue s) as [|code q]; simpl.
      * rewrite HM, Hname. rewrite Htruthy. simpl.
        left. world_case; reflexivity.
      * world_case; simpl;
          [right; do 2 eexists; split; [reflexivity|]; simpl; auto|].
        world_case; simpl;
          [right; do 2 eexists; split; [reflexivity|]; simpl; auto|].
        rewrite HM, Hname. rewrite Htruthy. simpl.
        left. world_case; reflexivity.
Qed.

Lemma installPackage_runs_the_normalized_install_witness :
  trace (final (installPackage
                  (sample_world [] no_command_fails None true)
                  (fresh_state (Some sampleRepo) false)))
  = []
  /\ executed
       (trace (final (installPackage
                        (sample_world [] no_command_fails (Some "yarn") true)
                        (fresh_state (Some sampleRepo) false))))
     = ["yarn install"].
Proof.
  split.
  - apply (installPackage_runs_the_normalized_install
             (sample_world [] no_command_fails None true)
             (fresh_state (Some sampleRepo) false)).
    reflexivity.
  - apply (proj2 (installPackage_runs_the_normalized_install
             (sample_world [] no_command_fails (Some "yarn") true)
             (fresh_state (Some sampleRepo) false)) "yarn" "yarn");
      reflexivity.
Defined.

(** ** Rules for outcomes *)

Section Rules.

Context {A B : Type}.
Variables (Qr : A -> State -> Prop) (Qt : Error -> State -> Prop)
  (Qe : Z -> State -> Prop).

Lemma satisfies_ret (a : A) (s : State) :
  Qr a s -> satisfies (ret a) s Qr Qt Qe.
Proof. intros H. exact H. Qed.

Lemma satisfies_bind (m : Proc B) (k : B -> Proc A) (s : State) :
  satisfies m s (fun b s' => satisfies (k b) s' Qr Qt Qe) Qt Qe ->
  satisfies (bind m k) s Qr Qt Qe.
Proof.
  unfold satisfies, bind. destruct (m s); intros H; exact H.
Qed.

Lemma satisfies_try_catch (m : Proc A) (h : Error -> Proc A) (s : State) :
  satisfies m s Qr (fun e s' => satisfies (h e) s' Qr Qt Qe) Qe ->
  satisfies (try_catch m h) s Qr Qt Qe.
Proof.
  unfold satisfies, try_catch. destruct (m s); intros H; exact H.
Qed.

Lemma satisfies_await (w : World) (m : Proc A) (s : State) :
  satisfies m s
    (fun a s' => Qr a (bump s') /\ forall code, Qe code (bump s'))
    (fun e s' => Qt e (bump s') /\ forall code, Qe code (bump s'))
    Qe ->
  satisfies (await w m) s Qr Qt Qe.
Proof.
  unfold satisfies, await, yield, bind, ret, throw, bump.
  destruct (m s) as [a s'|e s'|c s']; intros H; [| |exact H];
    destruct H as [Hr He];
    destruct (nextTickQueue s'); try exact Hr;
    destruct (tick_before_continuation w (awaits s'));
    try exact Hr; apply He.
Qed.

Lemma satisfies_weaken (m : Proc A) (s : State)
    (Qr' : A -> State -> Prop) (Qt' : Error -> State -> Prop)
    (Qe' : Z -> State -> Prop) :
  satisfies m s Qr' Qt' Qe' ->
  (forall a s', Qr' a s' -> Qr a s') ->
  (forall e s', Qt' e s' -> Qt e s') ->
  (forall c s', Qe' c s' -> Qe c s') ->
  satisfies m s Qr Qt Qe.
Proof.
  unfold satisfies. destruct (m s); intros H Hr Ht He; auto.
Qed.

End Rules.

Lemma satisfies_final_weaken {A} (m : Proc A) (s : State)
    (P : State -> Prop) (Qr : A -> State -> Prop)
    (Qt : Error -> State -> Prop) (Qe : Z -> State -> Prop) :
  P (final (m s)) ->
  (forall a s', P s' -> Qr a s') ->
  (forall e s', P s' -> Qt e s') ->
  (forall c s', P s' -> Qe c s') ->
  satisfies m s Qr Qt Qe.
Proof. unfold satisfies. destruct (m s); simpl; auto. Qed.

Lemma satisfies_any_final {A} (m : Proc A) (s : State) (P : State -> Prop) :
  satisfies m s (fun _ => P) (fun _ => P) (fun _ => P) ->
  P (final (m s)).
Proof. unfold satisfies. destruct (m s); simpl; auto. Qed.

(** ** Quiet steps *)

Lemma quiet_refl (s : State) : quiet s s.
Proof.
  repeat split. exists []. rewrite app_nil_r. split; [reflexivity|constructor].
Qed.

Lemma quiet_trans (s1 s2 s3 : State) : quiet s1 s2 -> quiet s2 s3 -> quiet s1 s3.
Proof.
  intros (Hh & Hf & evs & Ht & Hq) (Hh' & Hf' & evs' & Ht' & Hq').
  split; [congruence|]. split; [congruence|].
  exists (evs ++ evs'). split.
  - rewrite Ht', Ht, app_assoc. reflexivity.
  - apply Forall_app. split; assumption.
Qed.

Ltac quiet_events :=
  repeat split;
  repeat rewrite <- app_assoc; simpl;
  eexists; split;
  [ first [reflexivity | symmetry; apply app_nil_r]
  | repeat constructor ].

Lemma validateGithubRepo_quiet (w : World) (context : ref)
    (repoUrl : string) (s : State) :
  quiet s (final (validateGithubRepo w context repoUrl s)).
Proof.
  unfold validateGithubRepo. unfold_proc. simpl.
  repeat (world_case; simpl); quiet_events.
Qed.

Lemma cloneRepo_quiet (w : World) (context : ref) (repoUrl : string)
    (s : State) :
  quiet s (final (cloneRepo w context repoUrl s)).
Proof.
  unfold cloneRepo, fs_readdirSync_call. unfold_proc. simpl.
  destruct (fs_readdirSync w (process_cwd w)) as [files|]; simpl;
    [|apply quiet_refl].
  destruct (Nat.ltb 0 (List.length files));
    simpl; world_case; simpl; quiet_events.
Qed.

Lemma installPackage_quiet (w : World) (s : State) :
  quiet s (final (installPackage w s)).
Proof.
  unfold installPackage. unfold_proc. simpl.
  destruct (nextTickQueue s) as [|code q]; simpl;
    repeat (world_case; simpl); try quiet_events;
    destruct (normalizePackageManagerForOS w (getPackageManager w))
      as [[|a name]|]; simpl; try quiet_events;
    world_case; simpl; quiet_events.
Qed.

Lemma emit_quiet (ev : Event) (s : State) :
  record_read ev = None -> quiet s (final (emit ev s)).
Proof.
  intros Hev. unfold emit. simpl. repeat split.
  exists [ev]. split; [reflexivity | repeat constructor; exact Hev].
Qed.

Lemma exitOnNextTick_quiet (code : Z) (s : State) :
  quiet s (final (exitOnNextTick code s)).
Proof. unfold exitOnNextTick. simpl. quiet_events. Qed.

(** ** Effect of setLocalEnvDefaults and createAmplifySkeleton *)

Lemma setLocalEnvDefaults_effect (w : World) (context : ref) (s : State) :
  let s' := final (setLocalEnvDefaults w context s) in
  (forall r, heap s' r
             = if Nat.eqb r context
               then with_sample_defaults w (heap s context)
               else heap s r)
  /\ FeatureFlags_isInitialized s' = FeatureFlags_isInitialized s
  /\ trace s'
     = trace s ++
       [print_warning "Setting default editor to vscode";
        print_warning "Setting environment to sampledev";
        print_warning
          "Run amplify configure project to change the default configuration later";
        generateLocalEnvInfoFile (with_sample_defaults w (heap s context))].
Proof.
  unfold setLocalEnvDefaults, generateLocalEnvInfoFile_call. unfold_proc.
  simpl.
  destruct (generateLocalEnvInfoFile_fails w); simpl;
    destruct (nextTickQueue s) as [|code q]; simpl;
    try world_case; simpl;
    repeat rewrite heap_set_same; repeat rewrite <- app_assoc; simpl;
    (split;
     [ intros r; unfold heap_set; destruct (Nat.eqb r context); reflexivity
     | split; reflexivity ]).
Qed.

Lemma createAmplifySkeleton_heap (w : World) (context : ref) (s : State) :
  heap (final (createAmplifySkeleton w context s)) = heap s.
Proof.
  unfold createAmplifySkeleton, FeatureFlags_initialize_call,
    FeatureFlags_isInitialized_call.
  unfold_proc. simpl.
  destruct (insertAmplifyIgnore_fails w); simpl; [reflexivity|].
  destruct (fs_copy_fails w); simpl;
    destruct (nextTickQueue s) as [|code q]; simpl;
    repeat (world_case; simpl); try reflexivity;
    destruct (FeatureFlags_isInitialized s); simpl;
    destruct (FeatureFlags_initialize_fails w); simpl;
    repeat (world_case; simpl); try reflexivity;
    destruct (FeatureFlags_ensureDefaultFeatureFlags_fails w); simpl;
    repeat (world_case; simpl); reflexivity.
Qed.

(** ** Chaining steps *)

Section Chaining.

Context {A B : Type}.
Variables (Qr : A -> State -> Prop) (Qt : Error -> State -> Prop)
  (Qe : Z -> State -> Prop).

Lemma satisfies_read_bind (r : ref) (k : TSContext -> Proc A) (s : State) :
  satisfies (k (heap s r)) s Qr Qt Qe ->
  satisfies (bind (read r) k) s Qr Qt Qe.
Proof. intros H. exact H. Qed.

(** A quiet step followed by a continuation. *)
Lemma step_quiet (m : Proc B) (k : B -> Proc A) (s0 s1 : State) :
  quiet s0 s1 ->
  quiet s1 (final (m s1)) ->
  (forall b s2, quiet s0 s2 -> satisfies (k b) s2 Qr Qt Qe) ->
  (forall e s2, quiet s0 s2 -> Qt e s2) ->
  (forall c s2, quiet s0 s2 -> Qe c s2) ->
  satisfies (bind m k) s1 Qr Qt Qe.
Proof.
  intros H01 H12 Hk Ht He. unfold satisfies, bind.
  pose proof (quiet_trans H01 H12) as H02.
  destruct (m s1) as [b s2|e s2|c s2]; simpl in *.
  - apply Hk. exact H02.
  - apply Ht. exact H02.
  - apply He. exact H02.
Qed.

(** The same for an awaited quiet step. *)
Lemma step_quiet_await (w : World) (m : Proc B) (k : B -> Proc A)
    (s0 s1 : State) :
  quiet s0 s1 ->
  quiet s1 (final (m s1)) ->
  (forall b s2, quiet s0 s2 -> satisfies (k b) s2 Qr Qt Qe) ->
  (forall e s2, quiet s0 s2 -> Qt e s2) ->
  (forall c s2, quiet s0 s2 -> Qe c s2) ->
  satisfies (bind (await w m) k) s1 Qr Qt Qe.
Proof.
  intros H01 H12 Hk Ht He.
  apply step_quiet with (s0 := s0); auto.
  unfold await, yield, bind, ret, throw.
  destruct (m s1) as [b s2|e s2|c s2]; simpl in *; try exact H12;
    destruct (nextTickQueue s2); simpl; try exact H12;
    destruct (tick_before_continuation w (awaits s2)); exact H12.
Qed.

End Chaining.

(** Awaiting adds a suspension point and nothing else. *)
Lemma await_final {A} (w : World) (m : Proc A) (s : State) :
  final (await w m s) = final (m s)
  \/ final (await w m s) = bump (final (m s)).
Proof.
  unfold await, yield, bind, ret, throw, bump.
  destruct (m s) as [a s'|e s'|c s']; simpl; auto;
    destruct (nextTickQueue s'); simpl; auto;
    destruct (tick_before_continuation w (awaits s')); simpl; auto.
Qed.

Lemma await_heap {A} (w : World) (m : Proc A) (s : State) :
  heap (final (await w m s)) = heap (final (m s)).
Proof. destruct (await_final w m s) as [H|H]; rewrite H; reflexivity. Qed.

Lemma await_trace {A} (w : World) (m : Proc A) (s : State) :
  trace (final (await w m s)) = trace (final (m s)).
Proof. destruct (await_final w m s) as [H|H]; rewrite H; reflexivity. Qed.

(** ** The context handed back by preInitSetup *)

Lemma preInitSetup_heap (w : World) (context : ref) (s : State) :
  satisfies (preInitSetup w context) s
    (fun v s' =>
       v = context
       /\ forall r, heap s' r
                    = if Nat.eqb r context
                      then context_after w (heap s context)
                      else heap s r)
    (fun _ _ => True) (fun _ _ => True).
Proof.
  unfold preInitSetup.
  apply satisfies_read_bind.
  apply satisfies_bind.
  eapply satisfies_weaken with
    (Qr' := fun _ s1 =>
       forall r, heap s1 r
                 = if Nat.eqb r context
                   then context_after w (heap s context)
                   else heap s r)
    (Qt' := fun _ _ => True) (Qe' := fun _ _ => True); auto.
  - unfold context_after.
    assert (Hsame : forall r : ref,
      heap s r = if Nat.eqb r context then heap s context else heap s r).
    { intros r. destruct (Nat.eqb_spec r context) as [->|]; reflexivity. }
    destruct (app (options (heap s context))) as [repoUrl|] eqn:Happ;
      [|exact Hsame].
    destruct (truthy (Some repoUrl)) eqn:Htruthy; [|exact Hsame].
    apply step_quiet with (s0 := s);
      [apply quiet_refl | apply emit_quiet; reflexivity | | auto | auto].
    intros _ s1 H1.
    apply step_quiet_await with (s0 := s);
      [exact H1 | apply validateGithubRepo_quiet | | auto | auto].
    intros _ s2 H2.
    apply step_quiet_await with (s0 := s);
      [exact H2 | apply cloneRepo_quiet | | auto | auto].
    intros _ s3 H3.
    apply step_quiet_await with (s0 := s);
      [exact H3 | apply installPackage_quiet | | auto | auto].
    intros _ s4 (Hheap & _).
    apply satisfies_final_weaken with
      (P := fun s' => forall r,
         heap s' r = if Nat.eqb r context
                     then with_sample_defaults w (heap s context)
                     else heap s r); auto.
    rewrite await_heap. intros r.
    rewrite (proj1 (setLocalEnvDefaults_effect w context s4) r).
    rewrite Hheap. reflexivity.
  - intros _ s1 Hheap. simpl.
    apply satisfies_read_bind. apply satisfies_bind.
    destruct (quickstart (options (heap s1 context))).
    + apply satisfies_bind.
      apply satisfies_final_weaken with (P := fun s' => heap s' = heap s1);
        auto.
      * rewrite await_heap. apply createAmplifySkeleton_heap.
      * intros _ s2 Hs2. unfold satisfies, bind, emit, exitOnNextTick, ret.
        simpl. split; [reflexivity|]. rewrite Hs2. exact Hheap.
    + unfold satisfies, bind, ret. simpl. split; [reflexivity | exact Hheap].
Qed.

(** C10: when [preInitSetup] returns, it returns the reference it was
    given; no other object changed; and of the context only
    [exeInfo.localEnvInfo] and [exeInfo.inputParams.amplify.envName] can
    differ: the options, the other properties of the context, and the
    other properties of [exeInfo], of [inputParams] and of [amplify] are
    those it came with.  The two are written when the app option is
    present, to the sample defaults, and are as they were otherwise; and
    with neither option present nothing at all happened. *)
Theorem preInitSetup_returns_its_context :
  forall (w : World) (context : ref) (s s' : State) (v : ref),
    preInitSetup w context s = Returned v s' ->
    v = context
    /\ (forall r, r <> context -> heap s' r = heap s r)
    /\ heap s' context = context_after w (heap s context)
    /\ options (heap s' context) = options (heap s context)
    /\ others (heap s' context) = others (heap s context)
    /\ exeInfo_others (exeInfo (heap s' context))
       = exeInfo_others (exeInfo (heap s context))
    /\ inputParams_others (inputParams (exeInfo (heap s' context)))
       = inputParams_others (inputParams (exeInfo (heap s context)))
    /\ amplify_others (amplify (inputParams (exeInfo (heap s' context))))
       = amplify_others (amplify (inputParams (exeInfo (heap s context))))
    /\ (truthy (app (options (heap s context))) = true ->
        localEnvInfo (exeInfo (heap s' context)) = Some (sample_defaults w)
        /\ amplify_envName
             (amplify (inputParams (exeInfo (heap s' context))))
           = Some "sampledev")
    /\ (truthy (app (options (heap s context))) = false ->
        exeInfo (heap s' context) = exeInfo (heap s context))
    /\ (truthy (app (options (heap s context))) = false ->
        quickstart (options (heap s context)) = false ->
        s' = s).
Proof.
  intros w context s s' v Hret.
  pose proof (preInitSetup_heap w context s) as Hsat.
  unfold satisfies in Hsat. rewrite Hret in Hsat.
  destruct Hsat as [Hv Hheap].
  assert (Hctx : heap s' context = context_after w (heap s context)).
  { rewrite Hheap, Nat.eqb_refl. reflexivity. }
  split; [exact Hv|]. split.
  { intros r Hne. rewrite Hheap.
    destruct (Nat.eqb_spec r context); [contradiction | reflexivity]. }
  split; [exact Hctx|].
  rewrite Hctx. unfold context_after.
  split; [destruct (truthy (app (options (heap s context)))); reflexivity|].
  split; [destruct (truthy (app (options (heap s context)))); reflexivity|].
  split; [destruct (truthy (app (options (heap s context)))); reflexivity|].
  split; [destruct (truthy (app (options (heap s context)))); reflexivity|].
  split; [destruct (truthy (app (options (heap s context)))); reflexivity|].
  split.
  { intros Hyes. rewrite Hyes. split; reflexivity. }
  split.
  - intros Hno. rewrite Hno. reflexivity.
  - intros Hno Hq. revert Hret. unfold preInitSetup. unfold_proc.
    destruct (app (options (heap s context))) as [repoUrl|] eqn:Happ.
    + rewrite Hno, Hq. intros Heq. inversion Heq. reflexivity.
    + rewrite Hq. intros Heq. inversion Heq. reflexivity.
Qed.

Lemma preInitSetup_returns_its_context_witness :
  exists s',
    preInitSetup world_all_well 7 configured_state = Returned 7 s'
    /\ options (heap s' 7) = mkOptions (Some sampleRepo) false
    /\ others (heap s' 7) = [("usageData", "on")]
    /\ exeInfo_others (exeInfo (heap s' 7)) = [("awsConfigInfo", "profile")]
    /\ inputParams_others (inputParams (exeInfo (heap s' 7)))
       = [("yes", "true")]
    /\ amplify_others (amplify (inputParams (exeInfo (heap s' 7))))
       = [("defaultEditor", "vim")]
    /\ amplify_envName (amplify (inputParams (exeInfo (heap s' 7))))
       = Some "sampledev".
Proof.
  assert (Hret :
    preInitSetup world_all_well 7 configured_state
    = Returned 7 (final (preInitSetup world_all_well 7 configured_state)))
    by (vm_compute; reflexivity).
  eexists. split; [exact Hret|].
  destruct (@preInitSetup_returns_its_context _ _ _ _ _ Hret)
    as (_ & _ & _ & Hopt & Hothers & Hexe & Hinput & Hamplify & Hset & _).
  split; [exact Hopt|]. split; [exact Hothers|]. split; [exact Hexe|].
  split; [exact Hinput|]. split; [exact Hamplify|].
  exact (proj2 (Hset eq_refl)).
Defined.

(** ** The record is populated before it is used *)

Lemma adds_trans (P : Event -> Prop) (s1 s2 s3 : State) :
  adds P s1 s2 -> adds P s2 s3 -> adds P s1 s3.
Proof.
  intros (evs & Ht & Hp) (evs' & Ht' & Hp').
  exists (evs ++ evs'). split.
  - rewrite Ht', Ht, app_assoc. reflexivity.
  - apply Forall_app. split; assumption.
Qed.

Lemma quiet_adds (P : Event -> Prop) (s s' : State) :
  (forall ev, record_read ev = None -> P ev) ->
  quiet s s' -> adds P s s'.
Proof.
  intros HP (_ & _ & evs & Ht & Hq). exists evs. split; [exact Ht|].
  eapply Forall_impl; [|exact Hq]. exact HP.
Qed.

Lemma no_read_sample_defaults (w : World) (ev : Event) :
  record_read ev = None -> reads_sample_defaults w ev.
Proof. intros Hnone info Hread. congruence. Qed.

(** The only record-reading event of [createAmplifySkeleton] is the
    initialisation of the feature flags, and it reads what the context
    holds on entry. *)
Lemma createAmplifySkeleton_reads (w : World) (context : ref) (s : State) :
  adds (fun ev => forall info, record_read ev = Some info ->
                               info = localEnvInfo (exeInfo (heap s context)))
    s (final (createAmplifySkeleton w context s)).
Proof.
  unfold adds, createAmplifySkeleton, FeatureFlags_initialize_call,
    FeatureFlags_isInitialized_call.
  unfold_proc. simpl.
  assert (Hdone : forall evs : list Event,
    Forall (fun ev => record_read ev = None
                      \/ ev = FeatureFlags_initialize
                                (localEnvInfo (exeInfo (heap s context))) true)
      evs ->
    exists evs', trace s ++ evs = trace s ++ evs'
      /\ Forall (fun ev => forall info, record_read ev = Some info ->
                   info = localEnvInfo (exeInfo (heap s context))) evs').
  { intros evs Hevs. exists evs. split; [reflexivity|].
    eapply Forall_impl; [|exact Hevs].
    intros ev [Hnone | ->] info Hread; simpl in *; congruence. }
  destruct (insertAmplifyIgnore_fails w); simpl;
    [apply Hdone;
     repeat (apply Forall_cons;
             [first [left; reflexivity | right; reflexivity]|]);
     apply Forall_nil|].
  destruct (fs_copy_fails w); simpl;
    destruct (nextTickQueue s) as [|code q]; simpl;
    repeat (world_case; simpl);
    repeat rewrite <- app_assoc; simpl;
    try (apply Hdone;
         repeat (apply Forall_cons;
                 [first [left; reflexivity | right; reflexivity]|]);
         apply Forall_nil);
    destruct (FeatureFlags_isInitialized s); simpl;
    destruct (FeatureFlags_initialize_fails w); simpl;
    repeat (world_case; simpl);
    repeat rewrite <- app_assoc; simpl;
    try (apply Hdone;
         repeat (apply Forall_cons;
                 [first [left; reflexivity | right; reflexivity]|]);
         apply Forall_nil);
    destruct (FeatureFlags_ensureDefaultFeatureFlags_fails w); simpl;
    repeat (world_case; simpl);
    repeat rewrite <- app_assoc; simpl;
    apply Hdone;
    repeat (apply Forall_cons;
            [first [left; reflexivity | right; reflexivity]|]);
    apply Forall_nil.
Qed.

Lemma adds_quiet (P : Event -> Prop) (s0 s1 s2 : State) :
  (forall ev, record_read ev = None -> P ev) ->
  adds P s0 s1 -> quiet s1 s2 -> adds P s0 s2.
Proof.
  intros HP H01 H12. eapply adds_trans; [exact H01|].
  apply quiet_adds; assumption.
Qed.

Lemma preInitSetup_reads_sample_defaults (w : World) (context : ref)
    (s : State) :
  truthy (app (options (heap s context))) = true ->
  adds (reads_sample_defaults w) s (final (preInitSetup w context s)).
Proof.
  intros Happ.
  pose proof (@no_read_sample_defaults w) as Hnone.
  apply satisfies_any_final with (P := adds (reads_sample_defaults w) s).
  unfold preInitSetup.
  apply satisfies_read_bind. apply satisfies_bind.
  eapply satisfies_weaken with
    (Qr' := fun _ s1 =>
       adds (reads_sample_defaults w) s s1
       /\ localEnvInfo (exeInfo (heap s1 context)) = Some (sample_defaults w))
    (Qt' := fun _ s1 => adds (reads_sample_defaults w) s s1)
    (Qe' := fun _ s1 => adds (reads_sample_defaults w) s s1); auto.
  - destruct (app (options (heap s context))) as [repoUrl|];
      [|discriminate Happ].
    rewrite Happ.
    apply step_quiet with (s0 := s);
      [apply quiet_refl | apply emit_quiet; reflexivity | |
       intros; apply quiet_adds; auto | intros; apply quiet_adds; auto].
    intros _ s1 H1.
    apply step_quiet_await with (s0 := s);
      [exact H1 | apply validateGithubRepo_quiet | |
       intros; apply quiet_adds; auto | intros; apply quiet_adds; auto].
    intros _ s2 H2.
    apply step_quiet_await with (s0 := s);
      [exact H2 | apply cloneRepo_quiet | |
       intros; apply quiet_adds; auto | intros; apply quiet_adds; auto].
    intros _ s3 H3.
    apply step_quiet_await with (s0 := s);
      [exact H3 | apply installPackage_quiet | |
       intros; apply quiet_adds; auto | intros; apply quiet_adds; auto].
    intros _ s4 H4.
    apply satisfies_final_weaken with
      (P := fun s' =>
         adds (reads_sample_defaults w) s s'
         /\ localEnvInfo (exeInfo (heap s' context))
            = Some (sample_defaults w));
      [| auto | intros e s' [H _]; exact H | intros c s' [H _]; exact H].
    destruct (setLocalEnvDefaults_effect w context s4) as (Hheap & _ & Htrace).
    rewrite await_heap. split.
    + eapply adds_trans; [apply quiet_adds; [exact Hnone | exact H4]|].
      eexists. rewrite await_trace. split; [exact Htrace|].
      repeat constructor; try (intros info Hread; discriminate Hread).
      intros info Hread. simpl in Hread. congruence.
    + rewrite Hheap, Nat.eqb_refl. reflexivity.
  - intros _ s1 [H1 Hrecord]. simpl.
    apply satisfies_read_bind. apply satisfies_bind.
    destruct (quickstart (options (heap s1 context))).
    + apply satisfies_bind.
      apply satisfies_final_weaken with
        (P := fun s' => adds (reads_sample_defaults w) s s'); auto.
      * eapply adds_trans; [exact H1|].
        destruct (createAmplifySkeleton_reads w context s1)
          as (evs & Htrace & Hevs).
        exists evs. rewrite await_trace. split; [exact Htrace|].
        eapply Forall_impl; [|exact Hevs].
        intros ev Hev info Hread. rewrite <- Hrecord. apply Hev. exact Hread.
      * intros _ s2 H2.
        apply step_quiet with (s0 := s2);
          [apply quiet_refl | apply emit_quiet; reflexivity | |
           intros; eapply adds_quiet; eauto |
           intros; eapply adds_quiet; eauto].
        intros _ s3 H3.
        apply satisfies_final_weaken with
          (P := fun s' => adds (reads_sample_defaults w) s s'); auto.
        eapply adds_quiet; [exact Hnone | exact H2 |].
        eapply quiet_trans; [exact H3 | apply exitOnNextTick_quiet].
    + unfold satisfies, bind, ret. simpl. exact H1.
Qed.

(** Quickstart alone, on a context that holds no local environment
    record: the feature flags are initialised from an absent record. *)
Example quickstart_alone_trace :
  trace (final (preInitSetup world_all_well 0 (fresh_state None true)))
  = [insertAmplifyIgnore "/home/dev/app/.gitignore";
     fs_copy "/cli/templates/amplify-skeleton"
       "/home/dev/app/amplify";
     FeatureFlags_initialize None true;
     FeatureFlags_ensureDefaultFeatureFlags true;
     usageData_emitSuccess;
     exit_scheduled 0].
Proof. vm_compute. reflexivity. Qed.

(** C4 as stated fails: in a quickstart-only run the initializer never
    runs, and the initialisation of the feature flags reads a record that
    is not there. *)
Lemma quickstart_alone_reads_absent_record :
  ~ Forall reads_populated
      (trace (final (preInitSetup world_all_well 0 (fresh_state None true)))).
Proof.
  rewrite quickstart_alone_trace. intros Hall.
  rewrite Forall_forall in Hall.
  apply (Hall (FeatureFlags_initialize None true)) with (info := None).
  - simpl. auto.
  - reflexivity.
  - reflexivity.
Qed.

(** C4 (amended): when the app option is present, every event the run
    adds that reads the local environment record (the persistence of the
    record, the initialisation of the feature flags) reads the record
    (cwd, "vscode", "sampledev"), which is therefore populated before
    either use. *)
Theorem sample_app_record_populated_before_use :
  forall (w : World) (context : ref) (s : State),
    truthy (app (options (heap s context))) = true ->
    exists evs,
      trace (final (preInitSetup w context s)) = trace s ++ evs
      /\ Forall (reads_sample_defaults w) evs
      /\ Forall reads_populated evs.
Proof.
  intros w context s Happ.
  destruct (preInitSetup_reads_sample_defaults w context s Happ)
    as (evs & Htrace & Hevs).
  exists evs. split; [exact Htrace|]. split; [exact Hevs|].
  eapply Forall_impl; [|exact Hevs].
  intros ev Hev info Hread. rewrite (Hev info Hread). discriminate.
Qed.

Lemma sample_app_record_populated_before_use_witness :
  exists evs,
    trace (final (preInitSetup world_all_well 0
                    (fresh_state (Some sampleRepo) true)))
    = trace (fresh_state (Some sampleRepo) true) ++ evs
    /\ Forall (reads_sample_defaults world_all_well) evs
    /\ Forall reads_populated evs.
Proof.
  apply (sample_app_record_populated_before_use world_all_well 0
           (fresh_state (Some sampleRepo) true)).
  reflexivity.
Defined.

(** ** Failures that do not stop the pipeline *)

(** Under a schedule in which the tick queue runs before the first
    continuation, a failing validation does end the process there, with
    code 1 and nothing after the validator. *)
Lemma invalid_url_exits_when_tick_runs_first (w : World) (context : ref)
    (repoUrl : string) (s : State) :
  app (options (heap s context)) = Some repoUrl ->
  truthy (Some repoUrl) = true ->
  validation_fails w repoUrl = true ->
  nextTickQueue s = [] ->
  tick_before_continuation w (awaits s) = true ->
  exists s',
    preInitSetup w context s = Exited 1%Z s'
    /\ executed (trace s')
       = executed (trace s)
         ++ (if url_parse_throws w repoUrl then []
             else [("git ls-remote " ++ repoUrl)%string])
    /\ heap s' = heap s.
Proof.
  intros Happ Htruthy Hfail Hq Htick.
  unfold preInitSetup, validateGithubRepo. unfold_proc. simpl.
  rewrite Happ, Htruthy. simpl.
  unfold validation_fails in Hfail.
  destruct (url_parse_throws w repoUrl); simpl in *.
  - rewrite Hq. simpl. rewrite Htick. eexists. split; [reflexivity|].
    simpl. repeat rewrite executed_app. simpl.
    repeat rewrite app_nil_r. split; reflexivity.
  - rewrite Hfail. simpl. rewrite Hq. simpl. rewrite Htick.
    eexists. split; [reflexivity|].
    simpl. repeat rewrite executed_app. simpl.
    repeat rewrite app_nil_r. split; reflexivity.
Qed.

(** C2 (the code departs from the claim): [{app: "not a url"}] in an
    empty directory, resumed before the tick queue runs.  The validator
    reports, emits once and queues exit 1, then returns; the pipeline goes
    on, the clone is attempted and emits a second error, and the local
    environment file is written. *)
Theorem invalid_url_still_clones_and_writes :
  validation_fails world_unreachable_remote "not a url" = true
  /\ trace (final (preInitSetup world_unreachable_remote 0
                     (fresh_state (Some "not a url") false)))
     = [print_warning sampleAppNote;
        execSync "git ls-remote not a url" stdio_ignore;
        print_error "Invalid remote github url";
        usageData_emitError (ExecError "git ls-remote not a url");
        exit_scheduled 1;
        execSync "git clone not a url ." stdio_inherit;
        usageData_emitError (ExecError "git clone not a url .");
        exit_scheduled 1;
        print_warning "Setting default editor to vscode";
        print_warning "Setting environment to sampledev";
        print_warning
          "Run amplify configure project to change the default configuration later";
        generateLocalEnvInfoFile
          (with_sample_defaults world_unreachable_remote
             (fresh_context (Some "not a url") false))].
Proof. split; vm_compute; reflexivity. Qed.

(** C3 (the code departs from the claim): a reachable repository and a
    working directory that holds a manifest, resumed before the tick
    queue runs.  The cloner reports the non-empty directory and queues
    exit 1, yet the clone, the install and the local environment
    initialisation all run after that first failure. *)
Theorem steps_run_after_the_first_failure :
  fs_readdirSync world_occupied_directory
    (process_cwd world_occupied_directory) = Some ["package.json"]
  /\ trace (final (preInitSetup world_occupied_directory 0
                     (fresh_state (Some sampleRepo) false)))
     = [print_warning sampleAppNote;
        execSync "git ls-remote https://github.com/x/y.git" stdio_ignore;
        print_error nonEmptyDirectoryMessage;
        usageData_emitError (NonEmptyDirectoryError nonEmptyDirectoryMessage);
        exit_scheduled 1;
        execSync "git clone https://github.com/x/y.git ." stdio_inherit;
        usageData_emitError
          (ExecError "git clone https://github.com/x/y.git .");
        exit_scheduled 1;
        execSync "npm install" stdio_inherit;
        print_warning "Setting default editor to vscode";
        print_warning "Setting environment to sampledev";
        print_warning
          "Run amplify configure project to change the default configuration later";
        generateLocalEnvInfoFile
          (with_sample_defaults world_occupied_directory
             (fresh_context (Some sampleRepo) false))].
Proof. split; vm_compute; reflexivity. Qed.

(** ** Feature flags are initialised at most once *)

Ltac count_events :=
  simpl; repeat rewrite count_app; unfold count; simpl; try lia.

Lemma createAmplifySkeleton_counts (w : World) (context : ref) (s : State) :
  satisfies (createAmplifySkeleton w context) s
    (fun _ s' =>
       FeatureFlags_isInitialized s' = true
       /\ count is_initialize (trace s')
          = count is_initialize (trace s) + initializations_left s
       /\ count is_ensureDefaults (trace s')
          = count is_ensureDefaults (trace s) + 1)
    (fun _ s' =>
       count is_initialize (trace s) <= count is_initialize (trace s')
       <= count is_initialize (trace s) + initializations_left s)
    (fun _ s' =>
       count is_initialize (trace s) <= count is_initialize (trace s')
       <= count is_initialize (trace s) + initializations_left s).
Proof.
  unfold satisfies, initializations_left, createAmplifySkeleton,
    FeatureFlags_initialize_call, FeatureFlags_isInitialized_call.
  unfold_proc. simpl.
  destruct (insertAmplifyIgnore_fails w); simpl; [count_events|].
  destruct (fs_copy_fails w); simpl;
    destruct (nextTickQueue s) as [|code q]; simpl;
    repeat (world_case; simpl); try (count_events; fail);
    destruct (FeatureFlags_isInitialized s) eqn:Hinit; simpl;
    destruct (FeatureFlags_initialize_fails w); simpl;
    repeat (world_case; simpl); try (count_events; fail);
    destruct (FeatureFlags_ensureDefaultFeatureFlags_fails w); simpl;
    repeat (world_case; simpl); try (count_events; fail);
    (split; [first [reflexivity | exact Hinit] | split; count_events]).
Qed.

Lemma invocations_counts (w : World) (contexts : list ref) :
  forall s : State,
    satisfies (invocations w contexts) s
      (fun _ s' =>
         count is_initialize (trace s) <= count is_initialize (trace s')
         <= count is_initialize (trace s) + initializations_left s
         /\ count is_ensureDefaults (trace s')
            = count is_ensureDefaults (trace s) + List.length contexts)
      (fun _ s' =>
         count is_initialize (trace s) <= count is_initialize (trace s')
         <= count is_initialize (trace s) + initializations_left s)
      (fun _ s' =>
         count is_initialize (trace s) <= count is_initialize (trace s')
         <= count is_initialize (trace s) + initializations_left s).
Proof.
  induction contexts as [|context rest IH]; intros s.
  - unfold satisfies. simpl. lia.
  - simpl. apply satisfies_bind. apply satisfies_await.
    eapply satisfies_weaken; [apply createAmplifySkeleton_counts | | |].
    + intros _ s1 (Hinit & Hcount & Hensure). split.
      * eapply satisfies_weaken; [apply (IH (bump s1)) | | |];
          unfold initializations_left in *; simpl; rewrite Hinit;
          intros; destruct (FeatureFlags_isInitialized s); lia.
      * intros code. simpl. lia.
    + intros e s1 H. split; [exact H | intros code; exact H].
    + intros c s1 H. exact H.
Qed.

(** Three invocations in a fresh process. *)
Example three_invocations :
  let s' := final (invocations world_all_well [0; 0; 0]
                     (fresh_state None true)) in
  count is_initialize (trace s') = 1
  /\ count is_ensureDefaults (trace s') = 3.
Proof. vm_compute. split; reflexivity. Qed.

(** C5: over any number of successive invocations of the Skeleton
    Generator, [FeatureFlags.initialize] is called at most once; once the
    store reports itself initialised it is not called at all; and
    [ensureDefaultFeatureFlags] runs once in every invocation of a
    sequence that completes. *)
Theorem FeatureFlags_initialized_at_most_once :
  forall (w : World) (contexts : list ref) (s : State),
    let s' := final (invocations w contexts s) in
    count is_initialize (trace s') <= count is_initialize (trace s) + 1
    /\ (FeatureFlags_isInitialized s = true ->
        count is_initialize (trace s') = count is_initialize (trace s))
    /\ (forall s'', invocations w contexts s = Returned tt s'' ->
        count is_ensureDefaults (trace s'')
        = count is_ensureDefaults (trace s) + List.length contexts).
Proof.
  intros w contexts s s'.
  pose proof (invocations_counts w contexts s) as Hsat.
  assert (Hbound :
    count is_initialize (trace s) <= count is_initialize (trace s')
    <= count is_initialize (trace s) + initializations_left s).
  { subst s'. unfold satisfies in Hsat.
    destruct (invocations w contexts s); simpl; tauto. }
  unfold initializations_left in Hbound.
  split; [destruct (FeatureFlags_isInitialized s); lia|].
  split.
  - intros Hinit. rewrite Hinit in Hbound. lia.
  - intros s'' Hret. unfold satisfies in Hsat. rewrite Hret in Hsat.
    tauto.
Qed.

Lemma FeatureFlags_initialized_at_most_once_witness :
  exists s'',
    invocations world_all_well [0; 0; 0] (fresh_state None true)
    = Returned tt s''
    /\ count is_ensureDefaults (trace s'') = 3
    /\ count is_initialize (trace s'') <= 1.
Proof.
  assert (Hret :
    invocations world_all_well [0; 0; 0] (fresh_state None true)
    = Returned tt
        (final (invocations world_all_well [0; 0; 0]
                  (fresh_state None true))))
    by (vm_compute; reflexivity).
  destruct (FeatureFlags_initialized_at_most_once world_all_well [0; 0; 0]
              (fresh_state None true)) as (Hmost & _ & Hensure).
  eexists. split; [exact Hret|]. split.
  - apply (Hensure _ Hret).
  - exact Hmost.
Defined.

(** ** Quickstart *)

Lemma calm_refl (context : ref) (s : State) : calm context s s.
Proof. repeat split. Qed.

Lemma calm_trans (context : ref) (s1 s2 s3 : State) :
  calm context s1 s2 -> calm context s2 s3 -> calm context s1 s3.
Proof.
  intros (Hq & Hc & Ho) (Hq' & Hc' & Ho').
  repeat split; congruence.
Qed.

Lemma yield_returned (w : World) (s : State) :
  nextTickQueue s = [] -> yield w s = Returned tt (bump s).
Proof.
  unfold yield, bump. intros Hq.
  destruct (nextTickQueue s); [reflexivity | discriminate Hq].
Qed.

(** An awaited step that returns with an empty tick queue resumes. *)
Lemma satisfies_await_calm {A} (w : World) (m : Proc A) (context : ref)
    (s : State) (Q : A -> State -> Prop) :
  nextTickQueue s = [] ->
  satisfies m s (fun a s' => calm context s s' /\ Q a (bump s'))
    (fun _ _ => False) (fun _ _ => False) ->
  satisfies (await w m) s
    (fun a s' => calm context s s' /\ Q a s')
    (fun _ _ => False) (fun _ _ => False).
Proof.
  intros Hq. unfold satisfies, await, bind, ret, throw.
  destruct (m s) as [a s'|e s'|c s']; try (intros []; fail).
  intros [Hcalm HQ].
  assert (Hq' : nextTickQueue s' = [])
    by (destruct Hcalm as (Hsame & _); congruence).
  rewrite (yield_returned w s' Hq'). split; [exact Hcalm | exact HQ].
Qed.

Ltac calm_events :=
  unfold calm; simpl; repeat rewrite count_app; unfold count; simpl;
  repeat split; try lia; try reflexivity; try assumption;
  try (symmetry; assumption).

Lemma validateGithubRepo_calm (w : World) (context : ref)
    (repoUrl : string) (s : State) :
  validation_fails w repoUrl = false ->
  satisfies (validateGithubRepo w context repoUrl) s
    (fun _ s' => calm context s s' /\ True)
    (fun _ _ => False) (fun _ _ => False).
Proof.
  intros Hok. unfold satisfies.
  rewrite validateGithubRepo_success by exact Hok. calm_events.
Qed.

Lemma cloneRepo_calm (w : World) (context : ref) (repoUrl : string)
    (s : State) :
  fs_readdirSync w (process_cwd w) = Some [] ->
  execSync_fails w (cloneCommand repoUrl) = false ->
  satisfies (cloneRepo w context repoUrl) s
    (fun _ s' => calm context s s' /\ True)
    (fun _ _ => False) (fun _ _ => False).
Proof.
  intros Hempty Hclone. unfold cloneCommand in Hclone.
  unfold satisfies, cloneRepo, fs_readdirSync_call. unfold_proc. simpl.
  rewrite Hempty. simpl. rewrite Hclone. calm_events.
Qed.

Lemma installPackage_calm (w : World) (context : ref) (s : State) :
  nextTickQueue s = [] ->
  install_succeeds w = true ->
  satisfies (installPackage w) s
    (fun _ s' => calm context s s' /\ True)
    (fun _ _ => False) (fun _ _ => False).
Proof.
  intros Hq Hok. unfold install_succeeds in Hok.
  unfold satisfies, installPackage. unfold_proc. simpl.
  rewrite Hq. simpl.
  destruct (normalizePackageManagerForOS w (getPackageManager w))
    as [[|a name]|]; simpl in *.
  - calm_events.
  - apply negb_true_iff in Hok. rewrite Hok. calm_events.
  - calm_events.
Qed.

Lemma setLocalEnvDefaults_calm (w : World) (context : ref) (s : State) :
  nextTickQueue s = [] ->
  generateLocalEnvInfoFile_fails w = false ->
  satisfies (setLocalEnvDefaults w context) s
    (fun _ s' => calm context s s' /\ True)
    (fun _ _ => False) (fun _ _ => False).
Proof.
  intros Hq Hok.
  unfold satisfies, setLocalEnvDefaults, generateLocalEnvInfoFile_call.
  unfold_proc. simpl. rewrite Hok. simpl. rewrite Hq.
  unfold calm. simpl. repeat rewrite heap_set_same.
  repeat rewrite count_app. unfold count. simpl.
  repeat split; try lia; try reflexivity; try assumption;
    try (symmetry; assumption).
Qed.

Lemma emit_calm (ev : Event) (context : ref) (s : State) :
  is_success ev = false ->
  satisfies (emit ev) s (fun _ s' => calm context s s' /\ True)
    (fun _ _ => False) (fun _ _ => False).
Proof.
  intros Hev. unfold satisfies, emit, calm. simpl.
  rewrite count_app. unfold count. simpl. rewrite Hev. simpl.
  repeat split. lia.
Qed.

(** A calm step followed by a continuation. *)
Lemma step_calm {A B} (m : Proc B) (k : B -> Proc A) (context : ref)
    (s0 s1 : State) (Q : A -> State -> Prop) :
  calm context s0 s1 ->
  satisfies m s1 (fun _ s2 => calm context s1 s2 /\ True)
    (fun _ _ => False) (fun _ _ => False) ->
  (forall b s2, calm context s0 s2 ->
                satisfies (k b) s2 Q (fun _ _ => False) (fun _ _ => False)) ->
  satisfies (bind m k) s1 Q (fun _ _ => False) (fun _ _ => False).
Proof.
  intros H01 Hm Hk. apply satisfies_bind.
  eapply satisfies_weaken; [exact Hm | | auto | auto].
  intros b s2 [H12 _]. apply Hk. eapply calm_trans; eassumption.
Qed.

Lemma calm_queue (context : ref) (s0 s1 : State) :
  nextTickQueue s0 = [] -> calm context s0 s1 -> nextTickQueue s1 = [].
Proof. intros Hq (Hsame & _). congruence. Qed.

(** With every collaborator succeeding and no exit queued, the Skeleton
    Generator copies the template and ensures the default flags. *)
Lemma createAmplifySkeleton_completes (w : World) (context : ref)
    (s : State) :
  nextTickQueue s = [] ->
  skeleton_completes w = true ->
  satisfies (createAmplifySkeleton w context) s
    (fun _ s' =>
       calm context s s'
       /\ (In (skeletonCopy w) (trace s')
           /\ In (FeatureFlags_ensureDefaultFeatureFlags true) (trace s')))
    (fun _ _ => False) (fun _ _ => False).
Proof.
  intros Hq Hok. unfold skeleton_completes in Hok.
  repeat (apply andb_true_iff in Hok; destruct Hok as [Hok ?]).
  repeat match goal with
         | H : negb _ = true |- _ => apply negb_true_iff in H
         end.
  unfold satisfies, skeletonCopy, createAmplifySkeleton,
    FeatureFlags_initialize_call, FeatureFlags_isInitialized_call.
  unfold_proc. simpl.
  repeat match goal with
         | H : _ = false |- _ => rewrite H; simpl
         end.
  rewrite Hq.
  destruct (FeatureFlags_isInitialized s); simpl;
    repeat match goal with
           | H : _ = false |- _ => rewrite H; simpl
           end;
    (split;
     [ calm_events
     | split; repeat rewrite <- app_assoc; simpl;
       apply in_or_app; right; simpl; auto 6 ]).
Qed.

Lemma preInitSetup_quickstart (w : World) (context : ref) (s : State) :
  quickstart (options (heap s context)) = true ->
  nextTickQueue s = [] ->
  sample_app_completes w (app (options (heap s context))) = true ->
  skeleton_completes w = true ->
  satisfies (preInitSetup w context) s
    (fun v s' =>
       v = context
       /\ In (skeletonCopy w) (trace s')
       /\ In (FeatureFlags_ensureDefaultFeatureFlags true) (trace s')
       /\ count is_success (trace s') = count is_success (trace s) + 1
       /\ nextTickQueue s' = [0%Z])
    (fun _ _ => False) (fun _ _ => False).
Proof.
  intros Hquick Hq Hsample Hskeleton.
  unfold preInitSetup.
  apply satisfies_read_bind. apply satisfies_bind.
  eapply satisfies_weaken with
    (Qr' := fun _ s1 => calm context s s1 /\ True)
    (Qt' := fun _ _ => False) (Qe' := fun _ _ => False); auto.
  - destruct (app (options (heap s context))) as [repoUrl|];
      [|split; [apply calm_refl | exact I]].
    unfold sample_app_completes in Hsample.
    destruct (truthy (Some repoUrl)); [|split; [apply calm_refl | exact I]].
    repeat (apply andb_true_iff in Hsample;
            destruct Hsample as [Hsample ?]).
    repeat match goal with
           | H : negb _ = true |- _ => apply negb_true_iff in H
           end.
    assert (Hempty : fs_readdirSync w (process_cwd w) = Some []).
    { destruct (fs_readdirSync w (process_cwd w)) as [[|f files]|];
        simpl in *; try discriminate; reflexivity. }
    apply step_calm with (context := context) (s0 := s);
      [apply calm_refl | apply emit_calm; reflexivity |].
    intros _ s1 Hcalm1.
    apply step_calm with (context := context) (s0 := s); [exact Hcalm1 | |].
    { apply satisfies_await_calm; [eapply calm_queue; eassumption|].
      apply validateGithubRepo_calm. assumption. }
    intros _ s2 Hcalm2.
    apply step_calm with (context := context) (s0 := s); [exact Hcalm2 | |].
    { apply satisfies_await_calm; [eapply calm_queue; eassumption|].
      apply cloneRepo_calm; assumption. }
    intros _ s3 Hcalm3.
    apply step_calm with (context := context) (s0 := s); [exact Hcalm3 | |].
    { apply satisfies_await_calm; [eapply calm_queue; eassumption|].
      apply installPackage_calm; [eapply calm_queue; eassumption|].
      assumption. }
    intros _ s4 Hcalm4.
    eapply satisfies_weaken with
      (Qr' := fun _ s5 => calm context s4 s5 /\ True)
      (Qt' := fun _ _ => False) (Qe' := fun _ _ => False); auto.
    + apply satisfies_await_calm; [eapply calm_queue; eassumption|].
      apply setLocalEnvDefaults_calm; [eapply calm_queue; eassumption|].
      assumption.
    + intros _ s5 [Hcalm5 _]. split; [|exact I].
      eapply calm_trans; eassumption.
  - intros _ s1 [Hcalm1 _]. simpl.
    apply satisfies_read_bind. apply satisfies_bind.
    destruct Hcalm1 as (Hq1 & Hcount1 & Hopt1).
    rewrite Hopt1, Hquick. rewrite Hq in Hq1.
    apply satisfies_bind.
    eapply satisfies_weaken with (Qt' := fun _ _ => False)
      (Qe' := fun _ _ => False);
      [apply satisfies_await_calm with (context := context)
         (Q := fun _ s' =>
            In (skeletonCopy w) (trace s')
            /\ In (FeatureFlags_ensureDefaultFeatureFlags true) (trace s'));
       [exact Hq1 | apply createAmplifySkeleton_completes; assumption]
      | | auto | auto].
    intros _ s2 ((Hq2 & Hcount2 & _) & Hcopy & Hensure).
    unfold satisfies, bind, emit, exitOnNextTick, ret. simpl.
    repeat rewrite count_app. unfold count at 2 3. simpl.
    rewrite Hq2, Hq1, Hcount2, Hcount1.
    repeat split; try lia;
      repeat (apply in_or_app; left); assumption.
Qed.

(** Scenario C with the sample app also requested and an install that
    fails: the failure propagates and the quickstart branch never runs. *)
Example install_failure_propagates :
  preInitSetup world_install_fails 0 (fresh_state (Some sampleRepo) true)
  = Thrown (ExecError "npm install")
      (mkState (fun _ => fresh_context (Some sampleRepo) true)
         [print_warning sampleAppNote;
          execSync "git ls-remote https://github.com/x/y.git" stdio_ignore;
          execSync "git clone https://github.com/x/y.git ." stdio_inherit;
          execSync "npm install" stdio_inherit]
         [] 5 false).
Proof. vm_compute. reflexivity. Qed.

(** C8 as stated fails: the quickstart flag is set, but the sample-app
    branch runs first and its install step throws; nothing is copied, no
    success is emitted and no exit with code 0 is queued. *)
Lemma quickstart_flag_alone_is_not_enough :
  quickstart (options (heap (fresh_state (Some sampleRepo) true) 0)) = true
  /\ ~ quickstart_succeeds world_install_fails
         (fresh_state (Some sampleRepo) true)
         (preInitSetup world_install_fails 0
            (fresh_state (Some sampleRepo) true)).
Proof.
  split; [reflexivity|].
  rewrite install_failure_propagates.
  intros (_ & _ & _ & Hexit). discriminate Hexit.
Qed.

(** C8 (amended): with the quickstart flag set, no exit already queued,
    the sample-app branch absent or completing without failure, and the
    collaborators of the Skeleton Generator succeeding, [preInitSetup]
    returns its context after copying the skeleton, ensuring the default
    feature flags, emitting one success event and queueing exit code 0 as
    the only exit. *)
Theorem quickstart_completes_with_exit_0 :
  forall (w : World) (context : ref) (s : State),
    quickstart (options (heap s context)) = true ->
    nextTickQueue s = [] ->
    sample_app_completes w (app (options (heap s context))) = true ->
    skeleton_completes w = true ->
    (exists s', preInitSetup w context s = Returned context s'
                /\ nextTickQueue s' = [0%Z])
    /\ quickstart_succeeds w s (preInitSetup w context s).
Proof.
  intros w context s Hquick Hq Hsample Hskeleton.
  pose proof (preInitSetup_quickstart w context s Hquick Hq Hsample Hskeleton)
    as Hsat.
  unfold satisfies in Hsat. unfold quickstart_succeeds.
  destruct (preInitSetup w context s) as [v s'|e s'|c s'];
    try contradiction.
  destruct Hsat as (-> & Hcopy & Hensure & Hcount & Hexit).
  simpl. split.
  - exists s'. split; [reflexivity | exact Hexit].
  - rewrite Hexit. repeat split; assumption.
Qed.

Lemma quickstart_completes_with_exit_0_witness :
  quickstart_succeeds world_all_well (fresh_state (Some sampleRepo) true)
    (preInitSetup world_all_well 0 (fresh_state (Some sampleRepo) true))
  /\ quickstart_succeeds world_all_well (fresh_state None true)
       (preInitSetup world_all_well 0 (fresh_state None true)).
Proof.
  split.
  - apply (quickstart_completes_with_exit_0 world_all_well 0
             (fresh_state (Some sampleRepo) true)); reflexivity.
  - apply (quickstart_completes_with_exit_0 world_all_well 0
             (fresh_state None true)); reflexivity.
Defined.

(** * Further properties of the steps *)

(** ** validateGithubRepo, case by case *)

(** X1: the three ways [validateGithubRepo] ends.  A url that does not
    parse is never handed to [git]: the parse error itself is reported
    and emitted.  A probe that fails is reported with the same message
    and the error of the probe is emitted.  A probe that succeeds leaves
    nothing but itself.  In all three the validator returns, and in the
    two failures exactly one exit with code 1 is queued. *)
Theorem validateGithubRepo_case_by_case :
  forall (w : World) (context : ref) (repoUrl : string) (s : State),
    let probe := ("git ls-remote " ++ repoUrl)%string in
    let after (evs : list Event) (exits : list Z) :=
      Returned tt
        (mkState (heap s) (trace s ++ evs) (nextTickQueue s ++ exits)
           (awaits s) (FeatureFlags_isInitialized s)) in
    (url_parse_throws w repoUrl = true ->
     validateGithubRepo w context repoUrl s
     = after [print_error "Invalid remote github url";
              usageData_emitError (UrlParseError repoUrl);
              exit_scheduled 1] [1%Z])
    /\ (url_parse_throws w repoUrl = false ->
        execSync_fails w probe = true ->
        validateGithubRepo w context repoUrl s
        = after [execSync probe stdio_ignore;
                 print_error "Invalid remote github url";
                 usageData_emitError (ExecError probe);
                 exit_scheduled 1] [1%Z])
    /\ (url_parse_throws w repoUrl = false ->
        execSync_fails w probe = false ->
        validateGithubRepo w context repoUrl s
        = after [execSync probe stdio_ignore] []).
Proof.
  intros w context repoUrl s probe after. subst probe after.
  unfold validateGithubRepo. unfold_proc. simpl.
  repeat split.
  - intros Hparse. rewrite Hparse. simpl.
    repeat rewrite <- app_assoc. reflexivity.
  - intros Hparse Hprobe. rewrite Hparse. simpl. rewrite Hprobe. simpl.
    repeat rewrite <- app_assoc. reflexivity.
  - intros Hparse Hprobe. rewrite Hparse. simpl. rewrite Hprobe. simpl.
    rewrite app_nil_r. reflexivity.
Qed.

Lemma validateGithubRepo_case_by_case_witness :
  executed
    (trace (final (validateGithubRepo world_unparseable_url 0 "http://[" 
                     (fresh_state (Some "http://[") false))))
  = []
  /\ nextTickQueue
       (final (validateGithubRepo world_unreachable_remote 0 "not a url"
                 (fresh_state (Some "not a url") false)))
     = [1%Z]
  /\ trace (final (validateGithubRepo world_all_well 0 sampleRepo
                     (fresh_state (Some sampleRepo) false)))
     = [execSync "git ls-remote https://github.com/x/y.git" stdio_ignore].
Proof.
  split; [|split].
  - rewrite (proj1 (validateGithubRepo_case_by_case world_unparseable_url 0
                      "http://[" (fresh_state (Some "http://[") false)));
      reflexivity.
  - rewrite (proj1 (proj2 (validateGithubRepo_case_by_case
                             world_unreachable_remote 0 "not a url"
                             (fresh_state (Some "not a url") false))));
      reflexivity.
  - rewrite (proj2 (proj2 (validateGithubRepo_case_by_case
                             world_all_well 0 sampleRepo
                             (fresh_state (Some sampleRepo) false))));
      reflexivity.
Defined.

(** ** Failures that propagate *)

(** X2: a failing install is not caught anywhere.  When validation and
    clone succeed and the install command of the detected package manager
    fails, [preInitSetup] throws the error of that command to its caller:
    nothing is printed or emitted for it, no exit is queued, the context
    is untouched, the local environment is not written and the quickstart
    branch does not run. *)
Theorem failing_install_propagates :
  forall (w : World) (context : ref) (s : State) (repoUrl name : string),
    app (options (heap s context)) = Some repoUrl ->
    truthy (Some repoUrl) = true ->
    nextTickQueue s = [] ->
    validation_fails w repoUrl = false ->
    fs_readdirSync w (process_cwd w) = Some [] ->
    execSync_fails w (cloneCommand repoUrl) = false ->
    normalizePackageManagerForOS w (getPackageManager w) = Some name ->
    truthy (Some name) = true ->
    execSync_fails w (name ++ " install") = true ->
    exists s',
      preInitSetup w context s = Thrown (ExecError (name ++ " install")) s'
      /\ heap s' = heap s
      /\ nextTickQueue s' = []
      /\ trace s'
         = trace s ++
           [print_warning sampleAppNote;
            execSync ("git ls-remote " ++ repoUrl) stdio_ignore;
            execSync (cloneCommand repoUrl) stdio_inherit;
            execSync (name ++ " install") stdio_inherit].
Proof.
  intros w context s repoUrl name Happ Htruthy Hq Hvalid Hempty Hclone
    Hname Hnamed Hinstall.
  unfold validation_fails in Hvalid. apply orb_false_elim in Hvalid.
  destruct Hvalid as [Hparse Hprobe]. unfold cloneCommand in *.
  unfold preInitSetup, validateGithubRepo, cloneRepo, fs_readdirSync_call,
    installPackage.
  unfold_proc. simpl.
  rewrite Happ, Htruthy. simpl. rewrite Hparse. simpl. rewrite Hprobe.
  simpl. rewrite Hq. simpl. rewrite Hempty. simpl. rewrite Hclone. simpl.
  rewrite Hname. rewrite Hnamed. simpl. rewrite Hinstall. simpl.
  eexists. split; [reflexivity|]. simpl.
  repeat rewrite <- app_assoc. simpl. repeat split; assumption.
Qed.

Lemma failing_install_propagates_witness :
  exists s',
    preInitSetup world_install_fails 0 (fresh_state (Some sampleRepo) true)
    = Thrown (ExecError "npm install") s'
    /\ nextTickQueue s' = [].
Proof.
  destruct (@failing_install_propagates world_install_fails 0
              (fresh_state (Some sampleRepo) true) sampleRepo "npm")
    as (s' & Hthrown & _ & Hq & _); try reflexivity.
  exists s'. split; assumption.
Defined.

(** ** The sample-app path when everything succeeds *)

(** X3: with the app option present, no quickstart, no exit queued and
    every step succeeding, [preInitSetup] returns its context after
    exactly: the note, the probe, the clone, the install (if a package
    manager is determined), the three warnings and the write of the local
    environment.  Nothing is emitted to telemetry and no exit is queued,
    so the process goes on. *)
Theorem sample_app_happy_path :
  forall (w : World) (context : ref) (s : State) (repoUrl : string),
    app (options (heap s context)) = Some repoUrl ->
    truthy (Some repoUrl) = true ->
    quickstart (options (heap s context)) = false ->
    nextTickQueue s = [] ->
    sample_app_completes w (Some repoUrl) = true ->
    exists s',
      preInitSetup w context s = Returned context s'
      /\ heap s' context = with_sample_defaults w (heap s context)
      /\ nextTickQueue s' = []
      /\ trace s'
         = trace s ++
           [print_warning sampleAppNote;
            execSync ("git ls-remote " ++ repoUrl) stdio_ignore;
            execSync (cloneCommand repoUrl) stdio_inherit]
           ++ install_events w ++
           [print_warning "Setting default editor to vscode";
            print_warning "Setting environment to sampledev";
            print_warning
              "Run amplify configure project to change the default configuration later";
            generateLocalEnvInfoFile
              (with_sample_defaults w (heap s context))].
Proof.
  intros w context s repoUrl Happ Htruthy Hquick Hq Hok.
  unfold sample_app_completes in Hok. rewrite Htruthy in Hok.
  repeat (apply andb_true_iff in Hok; destruct Hok as [Hok ?]).
  repeat match goal with
         | H : negb _ = true |- _ => apply negb_true_iff in H
         end.
  unfold validation_fails in Hok. apply orb_false_elim in Hok.
  destruct Hok as [Hparse Hprobe].
  assert (Hempty : fs_readdirSync w (process_cwd w) = Some []).
  { destruct (fs_readdirSync w (process_cwd w)) as [[|f files]|];
      simpl in *; try discriminate; reflexivity. }
  unfold cloneCommand, install_succeeds, install_events in *.
  unfold preInitSetup, validateGithubRepo, cloneRepo, fs_readdirSync_call,
    installPackage, setLocalEnvDefaults, generateLocalEnvInfoFile_call.
  unfold_proc. simpl.
  rewrite Happ, Htruthy. simpl. rewrite Hparse. simpl. rewrite Hprobe.
  simpl. rewrite Hq. simpl. rewrite Hempty. simpl.
  match goal with
  | H : execSync_fails w ("git clone " ++ repoUrl ++ " .") = false |- _ =>
      rewrite H
  end. simpl.
  match goal with
  | H : generateLocalEnvInfoFile_fails w = false |- _ => rename H into Hpersist
  end.
  destruct (normalizePackageManagerForOS w (getPackageManager w))
    as [[|a name]|]; simpl in *.
  - rewrite Hpersist. simpl. repeat rewrite heap_set_same.
    unfold set_inputParams_amplify_envName, set_localEnvInfo. simpl.
    rewrite Hquick. simpl.
    eexists. split; [reflexivity|]. simpl.
    repeat rewrite heap_set_same. repeat rewrite <- app_assoc.
    repeat split; reflexivity.
  - match goal with
    | H : negb (execSync_fails w _) = true |- _ =>
        apply negb_true_iff in H; rewrite H
    end. simpl.
    rewrite Hpersist. simpl. repeat rewrite heap_set_same.
    unfold set_inputParams_amplify_envName, set_localEnvInfo. simpl.
    rewrite Hquick. simpl.
    eexists. split; [reflexivity|]. simpl.
    repeat rewrite heap_set_same. repeat rewrite <- app_assoc.
    repeat split; reflexivity.
  - rewrite Hpersist. simpl. repeat rewrite heap_set_same.
    unfold set_inputParams_amplify_envName, set_localEnvInfo. simpl.
    rewrite Hquick. simpl.
    eexists. split; [reflexivity|]. simpl.
    repeat rewrite heap_set_same. repeat rewrite <- app_assoc.
    repeat split; reflexivity.
Qed.

Lemma sample_app_happy_path_witness :
  exists s',
    preInitSetup world_all_well 0 (fresh_state (Some sampleRepo) false)
    = Returned 0 s'
    /\ executed (trace s')
       = ["git ls-remote https://github.com/x/y.git";
          "git clone https://github.com/x/y.git ."; "npm install"]
    /\ nextTickQueue s' = [].
Proof.
  destruct (@sample_app_happy_path world_all_well 0
              (fresh_state (Some sampleRepo) false) sampleRepo)
    as (s' & Hret & _ & Hq & Htrace); try reflexivity.
  exists s'. split; [exact Hret|]. split; [|exact Hq].
  rewrite Htrace. reflexivity.
Defined.

(** ** The Skeleton Generator, step by step *)

Lemma createAmplifySkeleton_prefix (w : World) (context : ref) (s : State) :
  (exists n,
     trace (final (createAmplifySkeleton w context s))
     = trace s ++ firstn n (skeleton_events w context s))
  /\ nextTickQueue (final (createAmplifySkeleton w context s))
     = nextTickQueue s
  /\ (forall s', createAmplifySkeleton w context s = Returned tt s' ->
      trace s' = trace s ++ skeleton_events w context s
      /\ FeatureFlags_isInitialized s' = true).
Proof.
  unfold skeleton_events, skeletonCopy, createAmplifySkeleton,
    FeatureFlags_initialize_call, FeatureFlags_isInitialized_call.
  unfold_proc. simpl.
  assert (Hpre : forall (evs all : list Event) (n : nat),
    evs = firstn n all ->
    exists k, trace s ++ evs = trace s ++ firstn k all).
  { intros evs all n ->. exists n. reflexivity. }
  destruct (insertAmplifyIgnore_fails w); simpl.
  { split; [apply Hpre with (n := 1); reflexivity|].
    split; [reflexivity | discriminate]. }
  destruct (fs_copy_fails w); simpl;
    destruct (nextTickQueue s) as [|code q] eqn:Hq; simpl;
    repeat (world_case; simpl); repeat rewrite <- app_assoc; simpl;
    try (split; [apply Hpre with (n := 2); reflexivity|];
         split; [reflexivity | discriminate]);
    destruct (FeatureFlags_isInitialized s) eqn:Hinit; simpl;
    destruct (FeatureFlags_initialize_fails w); simpl;
    repeat (world_case; simpl); repeat rewrite <- app_assoc; simpl;
    try (split; [first [apply Hpre with (n := 2); reflexivity
                       | apply Hpre with (n := 3); reflexivity]|];
         split; [reflexivity | discriminate]);
    destruct (FeatureFlags_ensureDefaultFeatureFlags_fails w); simpl;
    repeat (world_case; simpl); repeat rewrite <- app_assoc; simpl;
    (split; [first [apply Hpre with (n := 3); reflexivity
                   | apply Hpre with (n := 4); reflexivity]|];
     split; [reflexivity|];
     first [discriminate
           | intros s' Hret; inversion Hret; subst; simpl;
             split; [reflexivity | first [reflexivity | exact Hinit]]]).
Qed.

Ltac skeleton_stops :=
  simpl in *; repeat rewrite <- app_assoc; simpl;
  first
    [ discriminate
    | match goal with
      | Hk : Some _ = Some _ |- _ => inversion Hk; subst; clear Hk
      end;
      split;
      [ first [ exists 0; split; [lia | reflexivity]
              | exists 1; split; [lia | reflexivity]
              | exists 2; split; [lia | reflexivity]
              | exists 3; split; [lia | reflexivity]
              | exists 4; split; [lia | reflexivity] ]
      | split;
        [ intros s' Hret; discriminate Hret
        | intros Hq;
          first [ discriminate Hq
                | split; [reflexivity | do 2 eexists; reflexivity] ] ] ] ].

(** When a collaborator call fails, nothing of the list after that call
    is done and the generator does not return; with no exit queued the
    list is done up to that call and the failure is thrown. *)
Lemma createAmplifySkeleton_stops (w : World) (context : ref) (s : State)
    (k : nat) :
  first_failure w s = Some k ->
  (exists n,
     n <= k
     /\ trace (final (createAmplifySkeleton w context s))
        = trace s ++ firstn n (skeleton_events w context s))
  /\ (forall s', createAmplifySkeleton w context s <> Returned tt s')
  /\ (nextTickQueue s = [] ->
      trace (final (createAmplifySkeleton w context s))
      = trace s ++ firstn k (skeleton_events w context s)
      /\ exists e s', createAmplifySkeleton w context s = Thrown e s').
Proof.
  unfold first_failure, skeleton_events, skeletonCopy,
    createAmplifySkeleton, FeatureFlags_initialize_call,
    FeatureFlags_isInitialized_call.
  unfold_proc. simpl. intros Hk.
  destruct (insertAmplifyIgnore_fails w); simpl in *;
    [solve [skeleton_stops]|].
  destruct (fs_copy_fails w); simpl in *;
    destruct (nextTickQueue s) as [|code q]; simpl in *;
    repeat (world_case; simpl in * ); try solve [skeleton_stops];
    destruct (FeatureFlags_isInitialized s); simpl in *;
    destruct (FeatureFlags_initialize_fails w); simpl in *;
    repeat (world_case; simpl in * ); try solve [skeleton_stops];
    destruct (FeatureFlags_ensureDefaultFeatureFlags_fails w); simpl in *;
    repeat (world_case; simpl in * ); solve [skeleton_stops].
Qed.

(** When no collaborator call fails and no exit is queued, the generator
    returns. *)
Lemma createAmplifySkeleton_returns (w : World) (context : ref) (s : State) :
  first_failure w s = None ->
  nextTickQueue s = [] ->
  exists s', createAmplifySkeleton w context s = Returned tt s'.
Proof.
  unfold first_failure, createAmplifySkeleton, FeatureFlags_initialize_call,
    FeatureFlags_isInitialized_call.
  unfold_proc. simpl. intros Hnone Hq. rewrite Hq.
  destruct (insertAmplifyIgnore_fails w); [discriminate|].
  destruct (fs_copy_fails w); [discriminate|]. simpl.
  destruct (FeatureFlags_isInitialized s); simpl.
  - destruct (FeatureFlags_ensureDefaultFeatureFlags_fails w);
      [discriminate|]. simpl. eexists. reflexivity.
  - destruct (FeatureFlags_initialize_fails w); [discriminate|].
    destruct (FeatureFlags_ensureDefaultFeatureFlags_fails w);
      [discriminate|]. simpl. eexists. reflexivity.
Qed.

(** X4: whatever fails and whenever the process is ended, what the
    Skeleton Generator has done is an initial part of: insert the ignore
    entry, copy the template, initialise the feature flags (only when the
    store is not initialised), ensure the defaults.  When the call at
    position [k] of that list is the first to fail, nothing after
    position [k] is done and the generator does not return; with no exit
    queued it has done exactly the first [k] and throws.  When no call
    fails and no exit is queued it returns, and whenever it returns it
    has done the whole list and the store is initialised.  It never
    writes the context and never queues an exit. *)
Theorem createAmplifySkeleton_events_in_order :
  forall (w : World) (context : ref) (s : State),
    (exists n,
       trace (final (createAmplifySkeleton w context s))
       = trace s ++ firstn n (skeleton_events w context s))
    /\ heap (final (createAmplifySkeleton w context s)) = heap s
    /\ nextTickQueue (final (createAmplifySkeleton w context s))
       = nextTickQueue s
    /\ (forall s', createAmplifySkeleton w context s = Returned tt s' ->
        trace s' = trace s ++ skeleton_events w context s
        /\ FeatureFlags_isInitialized s' = true)
    /\ (forall k, first_failure w s = Some k ->
        (exists n,
           n <= k
           /\ trace (final (createAmplifySkeleton w context s))
              = trace s ++ firstn n (skeleton_events w context s))
        /\ (forall s', createAmplifySkeleton w context s <> Returned tt s')
        /\ (nextTickQueue s = [] ->
            trace (final (createAmplifySkeleton w context s))
            = trace s ++ firstn k (skeleton_events w context s)
            /\ exists e s',
                 createAmplifySkeleton w context s = Thrown e s'))
    /\ (first_failure w s = None ->
        nextTickQueue s = [] ->
        exists s', createAmplifySkeleton w context s = Returned tt s').
Proof.
  intros w context s.
  destruct (createAmplifySkeleton_prefix w context s) as (Hpre & Hq & Hret).
  split; [exact Hpre|]. split; [apply createAmplifySkeleton_heap|].
  split; [exact Hq|]. split; [exact Hret|].
  split; [intros k Hk; apply createAmplifySkeleton_stops; exact Hk|].
  apply createAmplifySkeleton_returns.
Qed.

Lemma createAmplifySkeleton_events_in_order_witness :
  (exists s',
     createAmplifySkeleton world_all_well 0 (fresh_state None true)
     = Returned tt s'
     /\ trace s'
        = [insertAmplifyIgnore "/home/dev/app/.gitignore";
           fs_copy "/cli/templates/amplify-skeleton" "/home/dev/app/amplify";
           FeatureFlags_initialize None true;
           FeatureFlags_ensureDefaultFeatureFlags true]
     /\ FeatureFlags_isInitialized s' = true)
  /\ (trace (final (createAmplifySkeleton world_copy_fails 0
                      (fresh_state None true)))
      = [insertAmplifyIgnore "/home/dev/app/.gitignore";
         fs_copy "/cli/templates/amplify-skeleton" "/home/dev/app/amplify"]
      /\ exists e s',
           createAmplifySkeleton world_copy_fails 0 (fresh_state None true)
           = Thrown e s').
Proof.
  split.
  - destruct (createAmplifySkeleton_events_in_order world_all_well 0
                (fresh_state None true))
      as (_ & _ & _ & Hall & _ & Hreturns).
    destruct (Hreturns eq_refl eq_refl) as [s' Hret].
    destruct (Hall _ Hret) as [Htrace Hinit].
    exists s'. split; [exact Hret|]. split; [|exact Hinit].
    rewrite Htrace. vm_compute. reflexivity.
  - destruct (createAmplifySkeleton_events_in_order world_copy_fails 0
                (fresh_state None true))
      as (_ & _ & _ & _ & Hstops & _).
    destruct (Hstops 2 eq_refl) as (_ & _ & Hthrown).
    destruct (Hthrown eq_refl) as [Htrace Hthrows].
    split; [|exact Hthrows].
    rewrite Htrace. vm_compute. reflexivity.
Defined.

(** ** setLocalEnvDefaults: failure and repetition *)

(** X5: the context is written before persistence is attempted and is not
    restored when persistence fails.  With no exit queued, a failing
    "write local env info" collaborator makes [setLocalEnvDefaults] throw
    to its caller, with nothing emitted to telemetry and no exit queued,
    while the context already holds the sample defaults. *)
Theorem failed_persistence_keeps_the_writes :
  forall (w : World) (context : ref) (s : State),
    generateLocalEnvInfoFile_fails w = true ->
    nextTickQueue s = [] ->
    exists e s',
      setLocalEnvDefaults w context s = Thrown e s'
      /\ heap s' context = with_sample_defaults w (heap s context)
      /\ emitted_errors (trace s') = emitted_errors (trace s)
      /\ nextTickQueue s' = [].
Proof.
  intros w context s Hfails Hq.
  unfold setLocalEnvDefaults, generateLocalEnvInfoFile_call. unfold_proc.
  simpl. rewrite Hfails. simpl. rewrite Hq.
  do 2 eexists. split; [reflexivity|]. simpl.
  repeat rewrite heap_set_same.
  repeat rewrite emitted_errors_app. simpl. repeat rewrite app_nil_r.
  repeat split; reflexivity.
Qed.

Lemma failed_persistence_keeps_the_writes_witness :
  exists e s',
    setLocalEnvDefaults world_persistence_fails 0 configured_state
    = Thrown e s'
    /\ localEnvInfo (exeInfo (heap s' 0))
       = Some (mkLocalEnvInfo "/home/dev/app" "vscode" "sampledev").
Proof.
  destruct (@failed_persistence_keeps_the_writes world_persistence_fails 0
              configured_state) as (e & s' & Hthrown & Hheap & _);
    try reflexivity.
  exists e, s'. split; [exact Hthrown|]. rewrite Hheap. reflexivity.
Defined.

Lemma with_sample_defaults_twice (w : World) (c : TSContext) :
  with_sample_defaults w (with_sample_defaults w c)
  = with_sample_defaults w c.
Proof. reflexivity. Qed.

(** X6: [setLocalEnvDefaults] overwrites whatever local environment and
    environment name the context held, and repeating it changes nothing
    more: after a second run the context is the one left by the first,
    every other object is as it was at the start, and the three warnings
    and the write of the file have happened twice. *)
Theorem setLocalEnvDefaults_twice :
  forall (w : World) (context : ref) (s s1 s2 : State),
    setLocalEnvDefaults w context s = Returned tt s1 ->
    setLocalEnvDefaults w context s1 = Returned tt s2 ->
    heap s2 context = heap s1 context
    /\ localEnvInfo (exeInfo (heap s1 context)) = Some (sample_defaults w)
    /\ amplify_envName (amplify (inputParams (exeInfo (heap s1 context))))
       = Some "sampledev"
    /\ (forall r, r <> context -> heap s2 r = heap s r)
    /\ count (fun ev => match ev with
                        | generateLocalEnvInfoFile _ => true
                        | _ => false
                        end) (trace s2)
       = count (fun ev => match ev with
                          | generateLocalEnvInfoFile _ => true
                          | _ => false
                          end) (trace s) + 2.
Proof.
  intros w context s s1 s2 Hfirst Hsecond.
  destruct (setLocalEnvDefaults_effect w context s) as (Hheap1 & _ & Ht1).
  destruct (setLocalEnvDefaults_effect w context s1) as (Hheap2 & _ & Ht2).
  rewrite Hfirst in Hheap1, Ht1. rewrite Hsecond in Hheap2, Ht2.
  simpl in *.
  assert (Hc1 : heap s1 context = with_sample_defaults w (heap s context))
    by (rewrite Hheap1, Nat.eqb_refl; reflexivity).
  split.
  { rewrite Hheap2, Nat.eqb_refl, Hc1. apply with_sample_defaults_twice. }
  split; [rewrite Hc1; reflexivity|].
  split; [rewrite Hc1; reflexivity|].
  split.
  { intros r Hne. apply Nat.eqb_neq in Hne.
    rewrite Hheap2, Hne, Hheap1, Hne. reflexivity. }
  rewrite Ht2, Ht1. repeat rewrite count_app. unfold count. simpl. lia.
Qed.

Lemma setLocalEnvDefaults_twice_witness :
  exists s1 s2,
    setLocalEnvDefaults world_all_well 0 configured_state = Returned tt s1
    /\ setLocalEnvDefaults world_all_well 0 s1 = Returned tt s2
    /\ heap s2 0 = heap s1 0
    /\ localEnvInfo (exeInfo (heap s1 0))
       = Some (mkLocalEnvInfo "/home/dev/app" "vscode" "sampledev").
Proof.
  assert (Hfirst :
    setLocalEnvDefaults world_all_well 0 configured_state
    = Returned tt
        (final (setLocalEnvDefaults world_all_well 0 configured_state)))
    by (vm_compute; reflexivity).
  assert (Hsecond :
    setLocalEnvDefaults world_all_well 0
      (final (setLocalEnvDefaults world_all_well 0 configured_state))
    = Returned tt
        (final (setLocalEnvDefaults world_all_well 0
                  (final (setLocalEnvDefaults world_all_well 0
                            configured_state)))))
    by (vm_compute; reflexivity).
  destruct (@setLocalEnvDefaults_twice _ _ _ _ _ Hfirst Hsecond)
    as (Hsame & Hrecord & _).
  do 2 eexists. split; [exact Hfirst|]. split; [exact Hsecond|].
  split; [exact Hsame | exact Hrecord].
Defined.

(** ** Chaining steps along a relation on states *)

Section RelationSteps.

Context {A B : Type}.
Variable R : State -> State -> Prop.
Hypothesis R_trans : forall s1 s2 s3, R s1 s2 -> R s2 s3 -> R s1 s3.
Hypothesis R_bump : forall s s', R s s' -> R s (bump s').
Variables (Qr : A -> State -> Prop) (Qt : Error -> State -> Prop)
  (Qe : Z -> State -> Prop).

Lemma step_rel (m : Proc B) (k : B -> Proc A) (s0 s1 : State) :
  R s0 s1 ->
  R s1 (final (m s1)) ->
  (forall b s2, R s0 s2 -> satisfies (k b) s2 Qr Qt Qe) ->
  (forall e s2, R s0 s2 -> Qt e s2) ->
  (forall c s2, R s0 s2 -> Qe c s2) ->
  satisfies (bind m k) s1 Qr Qt Qe.
Proof.
  intros H01 H12 Hk Ht He. unfold satisfies, bind.
  pose proof (R_trans H01 H12) as H02.
  destruct (m s1) as [b s2|e s2|c s2]; simpl in *.
  - apply Hk. exact H02.
  - apply Ht. exact H02.
  - apply He. exact H02.
Qed.

Lemma await_rel (w : World) (m : Proc B) (s : State) :
  R s (final (m s)) -> R s (final (await w m s)).
Proof.
  intros H. destruct (await_final w m s) as [Heq|Heq]; rewrite Heq.
  - exact H.
  - apply R_bump. exact H.
Qed.

End RelationSteps.

(** ** Every exit comes with its telemetry event *)

Lemma telemetry_codes_app (a b : list Event) :
  telemetry_codes (a ++ b) = telemetry_codes a ++ telemetry_codes b.
Proof.
  induction a as [|ev a IH]; simpl; [reflexivity|].
  destruct ev; simpl; rewrite IH; reflexivity.
Qed.

Lemma paired_refl (context : ref) (s : State) : paired context s s.
Proof.
  split; [reflexivity|]. exists [].
  repeat rewrite app_nil_r. repeat split. constructor.
Qed.

Lemma paired_trans (context : ref) (s1 s2 s3 : State) :
  paired context s1 s2 -> paired context s2 s3 -> paired context s1 s3.
Proof.
  intros (Ho & codes & Hq & Ht & Hc) (Ho' & codes' & Hq' & Ht' & Hc').
  split; [congruence|]. exists (codes ++ codes').
  rewrite Hq', Hq, Ht', Ht. repeat rewrite app_assoc.
  repeat split. apply Forall_app. split; assumption.
Qed.

Lemma paired_bump (context : ref) (s s' : State) :
  paired context s s' -> paired context s (bump s').
Proof. intros H. exact H. Qed.

Ltac paired_events :=
  unfold paired; simpl; repeat rewrite heap_set_same;
  repeat rewrite telemetry_codes_app; simpl;
  repeat rewrite <- app_assoc; simpl; repeat rewrite app_nil_r;
  split; [reflexivity|];
  eexists; split;
  [ first [reflexivity | symmetry; apply app_nil_r]
  | split;
    [ first [reflexivity | symmetry; apply app_nil_r]
    | repeat constructor ] ].

Lemma emit_paired (ev : Event) (context : ref) (s : State) :
  telemetry_codes [ev] = [] -> paired context s (final (emit ev s)).
Proof.
  intros Hev. unfold emit, paired. simpl.
  rewrite telemetry_codes_app, Hev.
  split; [reflexivity|]. exists []. repeat rewrite app_nil_r.
  repeat split. constructor.
Qed.

Lemma validateGithubRepo_paired (w : World) (context : ref)
    (repoUrl : string) (s : State) :
  paired context s (final (validateGithubRepo w context repoUrl s)).
Proof.
  unfold validateGithubRepo. unfold_proc. simpl.
  repeat (world_case; simpl); paired_events.
Qed.

Lemma cloneRepo_paired (w : World) (context : ref) (repoUrl : string)
    (s : State) :
  paired context s (final (cloneRepo w context repoUrl s)).
Proof.
  unfold cloneRepo, fs_readdirSync_call. unfold_proc. simpl.
  destruct (fs_readdirSync w (process_cwd w)) as [files|]; simpl;
    [|apply paired_refl].
  destruct (Nat.ltb 0 (List.length files));
    simpl; world_case; simpl; paired_events.
Qed.

Lemma installPackage_paired (w : World) (context : ref) (s : State) :
  paired context s (final (installPackage w s)).
Proof.
  unfold installPackage. unfold_proc. simpl.
  destruct (nextTickQueue s) as [|code q] eqn:Hq; simpl;
    repeat (world_case; simpl); try (rewrite <- Hq; paired_events; fail);
    destruct (normalizePackageManagerForOS w (getPackageManager w))
      as [[|a name]|]; simpl; try (rewrite <- Hq; paired_events; fail);
    world_case; simpl; rewrite <- Hq; paired_events.
Qed.

Lemma setLocalEnvDefaults_paired (w : World) (context : ref) (s : State) :
  paired context s (final (setLocalEnvDefaults w context s)).
Proof.
  unfold setLocalEnvDefaults, generateLocalEnvInfoFile_call. unfold_proc.
  simpl.
  destruct (generateLocalEnvInfoFile_fails w); simpl;
    destruct (nextTickQueue s) as [|code q] eqn:Hq; simpl;
    try world_case; simpl; rewrite <- Hq; paired_events.
Qed.

Lemma createAmplifySkeleton_paired (w : World) (context : ref) (s : State) :
  paired context s (final (createAmplifySkeleton w context s)).
Proof.
  unfold createAmplifySkeleton, FeatureFlags_initialize_call,
    FeatureFlags_isInitialized_call.
  unfold_proc. simpl.
  destruct (insertAmplifyIgnore_fails w); simpl; [paired_events|].
  destruct (fs_copy_fails w); simpl;
    destruct (nextTickQueue s) as [|code q] eqn:Hq; simpl;
    repeat (world_case; simpl); try (rewrite <- Hq; paired_events; fail);
    destruct (FeatureFlags_isInitialized s); simpl;
    destruct (FeatureFlags_initialize_fails w); simpl;
    repeat (world_case; simpl); try (rewrite <- Hq; paired_events; fail);
    destruct (FeatureFlags_ensureDefaultFeatureFlags_fails w); simpl;
    repeat (world_case; simpl); rewrite <- Hq; paired_events.
Qed.

Lemma preInitSetup_paired (w : World) (context : ref) (s : State) :
  satisfies (preInitSetup w context) s
    (fun v s' =>
       (quickstart (options (heap s context)) = false
        /\ paired context s s')
       \/ (quickstart (options (heap s context)) = true
           /\ exists s1,
                paired context s s1
                /\ nextTickQueue s' = nextTickQueue s1 ++ [0%Z]
                /\ telemetry_codes (trace s')
                   = telemetry_codes (trace s1) ++ [0%Z]))
    (fun _ s' => paired context s s')
    (fun _ s' => paired context s s').
Proof.
  pose proof (@paired_trans context) as Htrans.
  pose proof (@paired_bump context) as Hbump.
  unfold preInitSetup.
  apply satisfies_read_bind. apply satisfies_bind.
  eapply satisfies_weaken with
    (Qr' := fun _ s1 => paired context s s1)
    (Qt' := fun _ s1 => paired context s s1)
    (Qe' := fun _ s1 => paired context s s1); auto.
  - destruct (app (options (heap s context))) as [repoUrl|];
      [|apply paired_refl].
    destruct (truthy (Some repoUrl)); [|apply paired_refl].
    apply step_rel with (R := paired context) (s0 := s);
      [exact Htrans | apply paired_refl | apply emit_paired; reflexivity
       | | auto | auto].
    intros _ s1 Hs1.
    apply step_rel with (R := paired context) (s0 := s);
      [exact Htrans | exact Hs1
       | apply await_rel; [exact Hbump | apply validateGithubRepo_paired]
       | | auto | auto].
    intros _ s2 Hs2.
    apply step_rel with (R := paired context) (s0 := s);
      [exact Htrans | exact Hs2
       | apply await_rel; [exact Hbump | apply cloneRepo_paired]
       | | auto | auto].
    intros _ s3 Hs3.
    apply step_rel with (R := paired context) (s0 := s);
      [exact Htrans | exact Hs3
       | apply await_rel; [exact Hbump | apply installPackage_paired]
       | | auto | auto].
    intros _ s4 Hs4.
    apply satisfies_final_weaken with (P := paired context s); auto.
    eapply Htrans; [exact Hs4|].
    apply await_rel; [exact Hbump | apply setLocalEnvDefaults_paired].
  - intros _ s1 Hs1. simpl.
    apply satisfies_read_bind. apply satisfies_bind.
    rewrite (proj1 Hs1).
    destruct (quickstart (options (heap s context))) eqn:Hquick.
    + apply satisfies_bind.
      apply satisfies_final_weaken with (P := paired context s); auto.
      * eapply Htrans; [exact Hs1|].
        apply await_rel; [exact Hbump | apply createAmplifySkeleton_paired].
      * intros _ s2 Hs2.
        unfold satisfies, bind, emit, exitOnNextTick, ret. simpl.
        right. split; [reflexivity|]. exists s2.
        repeat rewrite telemetry_codes_app. simpl.
        repeat rewrite app_nil_r.
        split; [exact Hs2|]. split; reflexivity.
    + unfold satisfies, bind, ret. simpl. left. split; [reflexivity|].
      exact Hs1.
Qed.

Lemma preInitSetup_exit_shape :
  forall (w : World) (context : ref) (s : State),
    exists ones zero,
      nextTickQueue (final (preInitSetup w context s))
      = nextTickQueue s ++ ones ++ zero
      /\ telemetry_codes (trace (final (preInitSetup w context s)))
         = telemetry_codes (trace s) ++ ones ++ zero
      /\ Forall (eq 1%Z) ones
      /\ (zero = []
          \/ (zero = [0%Z]
              /\ quickstart (options (heap s context)) = true
              /\ exists s', preInitSetup w context s = Returned context s')).
Proof.
  intros w context s.
  pose proof (preInitSetup_paired w context s) as Hsat.
  pose proof (preInitSetup_heap w context s) as Hheap.
  unfold satisfies in Hsat, Hheap.
  destruct (preInitSetup w context s) as [v s'|e s'|c s']; simpl.
  - destruct Hheap as [-> _].
    destruct Hsat as [[_ (_ & codes & Hq & Ht & Hc)]
                     | [Hquick (s1 & (_ & codes & Hq & Ht & Hc) & Hq' & Ht')]].
    + exists codes, []. rewrite app_nil_r. auto.
    + exists codes, [0%Z]. rewrite Hq', Ht', Hq, Ht.
      repeat rewrite <- app_assoc.
      repeat split; auto. right. repeat split; eauto.
  - destruct Hsat as (_ & codes & Hq & Ht & Hc).
    exists codes, []. rewrite app_nil_r. auto.
  - destruct Hsat as (_ & codes & Hq & Ht & Hc).
    exists codes, []. rewrite app_nil_r. auto.
Qed.

(** X7: every exit [preInitSetup] queues comes with one telemetry event,
    an error for code 1 and the success event for code 0.  The exits it
    queues are any number with code 1 followed by at most one with code
    0, and the one with code 0 is there only when the quickstart flag is
    set and [preInitSetup] returns.  So when a failure of the sample-app
    branch has queued an exit, a later quickstart success queues its
    exit behind it. *)
Theorem exits_follow_telemetry :
  forall (w : World) (context : ref) (s : State),
    exists ones zero,
      nextTickQueue (final (preInitSetup w context s))
      = nextTickQueue s ++ ones ++ zero
      /\ telemetry_codes (trace (final (preInitSetup w context s)))
         = telemetry_codes (trace s) ++ ones ++ zero
      /\ Forall (eq 1%Z) ones
      /\ (zero = []
          \/ (zero = [0%Z]
              /\ quickstart (options (heap s context)) = true
              /\ exists s', preInitSetup w context s = Returned context s')).
Proof. exact preInitSetup_exit_shape. Qed.

(** ** The commands run, in order *)

Lemma validateGithubRepo_commands (w : World) (context : ref)
    (repoUrl : string) (s : State) :
  satisfies (validateGithubRepo w context repoUrl) s
    (fun _ s' =>
       executed (trace s') = executed (trace s) ++ probe_commands w repoUrl)
    (fun _ _ => False) (fun _ _ => False).
Proof.
  unfold satisfies, probe_commands, validateGithubRepo. unfold_proc. simpl.
  repeat (world_case; simpl); repeat rewrite executed_app; simpl;
    repeat rewrite app_nil_r; repeat rewrite <- app_assoc; reflexivity.
Qed.

Lemma cloneRepo_commands (w : World) (context : ref) (repoUrl : string)
    (s : State) :
  satisfies (cloneRepo w context repoUrl) s
    (fun _ s' =>
       executed (trace s') = executed (trace s) ++ [cloneCommand repoUrl])
    (fun _ s' => executed (trace s') = executed (trace s))
    (fun _ _ => False).
Proof.
  unfold satisfies, cloneCommand, cloneRepo, fs_readdirSync_call.
  unfold_proc. simpl.
  destruct (fs_readdirSync w (process_cwd w)) as [files|]; simpl;
    [|reflexivity].
  destruct (Nat.ltb 0 (List.length files));
    simpl; world_case; simpl; repeat rewrite executed_app; simpl;
    repeat rewrite app_nil_r; repeat rewrite <- app_assoc; reflexivity.
Qed.

Lemma installPackage_commands (w : World) (s : State) :
  satisfies (installPackage w) s
    (fun _ s' =>
       executed (trace s')
       = executed (trace s) ++ executed (install_events w))
    (fun _ s' =>
       executed (trace s')
       = executed (trace s) ++ executed (install_events w))
    (fun _ s' => executed (trace s') = executed (trace s)).
Proof.
  unfold satisfies, install_events, installPackage. unfold_proc. simpl.
  destruct (nextTickQueue s) as [|code q]; simpl;
    repeat (world_case; simpl); try reflexivity;
    destruct (normalizePackageManagerForOS w (getPackageManager w))
      as [[|a name]|]; simpl; try (rewrite app_nil_r; reflexivity);
    world_case; simpl; rewrite executed_app; reflexivity.
Qed.

Lemma setLocalEnvDefaults_same_commands (w : World) (context : ref)
    (s : State) :
  same_commands s (final (setLocalEnvDefaults w context s)).
Proof.
  unfold same_commands.
  destruct (setLocalEnvDefaults_effect w context s) as (_ & _ & Htrace).
  rewrite Htrace, executed_app. simpl. apply app_nil_r.
Qed.

Lemma createAmplifySkeleton_same_commands (w : World) (context : ref)
    (s : State) :
  same_commands s (final (createAmplifySkeleton w context s)).
Proof.
  unfold same_commands.
  destruct (createAmplifySkeleton_prefix w context s) as ([n Htrace] & _).
  rewrite Htrace, executed_app. unfold skeleton_events, skeletonCopy.
  destruct (FeatureFlags_isInitialized s);
    destruct n as [|[|[|[|n]]]]; simpl; rewrite ?firstn_nil; simpl;
    apply app_nil_r.
Qed.

Lemma same_commands_trans (s1 s2 s3 : State) :
  same_commands s1 s2 -> same_commands s2 s3 -> same_commands s1 s3.
Proof. unfold same_commands. congruence. Qed.

Lemma same_commands_bump (s s' : State) :
  same_commands s s' -> same_commands s (bump s').
Proof. intros H. exact H. Qed.

Lemma ran_all (all : list string) (s s' : State) :
  executed (trace s') = executed (trace s) ++ all -> ran all s s'.
Proof.
  intros H. exists all, []. rewrite app_nil_r. split; [reflexivity | exact H].
Qed.

Lemma ran_none (all : list string) (s s' : State) :
  same_commands s s' -> ran all s s'.
Proof.
  intros H. exists [], all. split; [reflexivity|].
  rewrite app_nil_r. exact H.
Qed.

Lemma ran_part (done rest : list string) (s s' : State) :
  executed (trace s') = executed (trace s) ++ done ->
  ran (done ++ rest) s s'.
Proof. intros H. exists done, rest. split; [reflexivity | exact H]. Qed.

Lemma preInitSetup_commands (w : World) (context : ref) (s : State) :
  satisfies (preInitSetup w context) s
    (fun _ s' =>
       executed (trace s')
       = executed (trace s)
         ++ pipeline_commands w (app (options (heap s context))))
    (fun _ s' =>
       ran (pipeline_commands w (app (options (heap s context)))) s s')
    (fun _ s' =>
       ran (pipeline_commands w (app (options (heap s context)))) s s').
Proof.
  pose proof same_commands_trans as Htrans.
  pose proof same_commands_bump as Hbump.
  unfold preInitSetup.
  apply satisfies_read_bind. apply satisfies_bind.
  eapply satisfies_weaken with
    (Qr' := fun _ s1 =>
       executed (trace s1)
       = executed (trace s)
         ++ pipeline_commands w (app (options (heap s context))))
    (Qt' := fun _ s1 =>
       ran (pipeline_commands w (app (options (heap s context)))) s s1)
    (Qe' := fun _ s1 =>
       ran (pipeline_commands w (app (options (heap s context)))) s s1);
    auto.
  - unfold pipeline_commands.
    destruct (app (options (heap s context))) as [repoUrl|];
      [|unfold satisfies, ret; symmetry; apply app_nil_r].
    destruct (truthy (Some repoUrl));
      [|unfold satisfies, ret; symmetry; apply app_nil_r].
    (* the note *)
    apply satisfies_bind.
    apply satisfies_final_weaken with (P := same_commands s);
      [unfold same_commands, emit; simpl; rewrite executed_app; simpl;
       apply app_nil_r
      | | intros e s1 Hs1; apply ran_none; exact Hs1
      | intros c s1 Hs1; apply ran_none; exact Hs1].
    intros _ s1 Hs1. unfold same_commands in Hs1.
    (* validation *)
    apply satisfies_bind. apply satisfies_await.
    eapply satisfies_weaken;
      [apply validateGithubRepo_commands | | intros ? ? [] | intros ? ? []].
    intros ? s2 Hs2. cbv beta in Hs2. rewrite Hs1 in Hs2.
    assert (Ht2 : executed (trace (bump s2))
                  = executed (trace s) ++ probe_commands w repoUrl)
      by exact Hs2.
    clear Hs2. generalize dependent (bump s2). clear s2.
    intros t2 Ht2. split; [|intros code; apply ran_part; exact Ht2].
    (* clone *)
    apply satisfies_bind. apply satisfies_await.
    eapply satisfies_weaken;
      [apply cloneRepo_commands
      |
      | intros e s3 Hs3; cbv beta in Hs3; rewrite Ht2 in Hs3;
        split; [|intros code]; apply ran_part; exact Hs3
      | intros ? ? []].
    intros ? s3 Hs3. cbv beta in Hs3. rewrite Ht2, <- app_assoc in Hs3.
    assert (Ht3 : executed (trace (bump s3))
                  = executed (trace s)
                    ++ probe_commands w repoUrl ++ [cloneCommand repoUrl])
      by exact Hs3.
    clear Hs3. generalize dependent (bump s3). clear s3.
    intros t3 Ht3.
    split;
      [|intros code;
        rewrite (app_assoc (probe_commands w repoUrl));
        apply ran_part; exact Ht3].
    (* install *)
    apply satisfies_bind. apply satisfies_await.
    eapply satisfies_weaken; [apply installPackage_commands | | |].
    + intros ? s4 Hs4. cbv beta in Hs4. rewrite Ht3 in Hs4. repeat rewrite <- app_assoc in Hs4.
      assert (Ht4 : executed (trace (bump s4))
                    = executed (trace s)
                      ++ probe_commands w repoUrl
                      ++ [cloneCommand repoUrl]
                      ++ executed (install_events w))
        by exact Hs4.
      clear Hs4. generalize dependent (bump s4). clear s4.
      intros t4 Ht4. split; [|intros code; apply ran_all; exact Ht4].
      (* the local environment *)
      apply satisfies_final_weaken with (P := same_commands t4);
        [apply await_rel;
         [exact Hbump | apply setLocalEnvDefaults_same_commands]
        | intros _ s5 Hs5; unfold same_commands in Hs5;
          rewrite Hs5; exact Ht4
        | intros e s5 Hs5; unfold same_commands in Hs5;
          apply ran_all; rewrite Hs5; exact Ht4
        | intros c s5 Hs5; unfold same_commands in Hs5;
          apply ran_all; rewrite Hs5; exact Ht4].
    + intros e s4 Hs4. cbv beta in Hs4. rewrite Ht3 in Hs4. repeat rewrite <- app_assoc in Hs4.
      split; [|intros code]; apply ran_all; exact Hs4.
    + intros c s4 Hs4. cbv beta in Hs4. rewrite Ht3 in Hs4.
      rewrite (app_assoc (probe_commands w repoUrl)).
      apply ran_part. exact Hs4.
  - intros _ s1 Hs1. simpl.
    apply satisfies_read_bind. apply satisfies_bind.
    destruct (quickstart (options (heap s1 context))).
    + apply satisfies_bind.
      apply satisfies_final_weaken with (P := same_commands s1);
        [apply await_rel;
         [exact Hbump | apply createAmplifySkeleton_same_commands]
        |
        | intros e s2 Hs2; unfold same_commands in Hs2;
          apply ran_all; rewrite Hs2; exact Hs1
        | intros c s2 Hs2; unfold same_commands in Hs2;
          apply ran_all; rewrite Hs2; exact Hs1].
      intros _ s2 Hs2. unfold same_commands in Hs2.
      unfold satisfies, bind, emit, exitOnNextTick, ret. simpl.
      repeat rewrite executed_app. simpl. repeat rewrite app_nil_r.
      rewrite Hs2. exact Hs1.
    + unfold satisfies, bind, ret. simpl. exact Hs1.
Qed.

(** X8: the commands [preInitSetup] hands to [execSync] are an initial
    part of: the probe (unless the url does not parse), the clone, the
    install of the determined package manager (if any).  So they are run
    in that order, none twice, none unless the ones before it were run,
    and none at all when the app option is absent or empty; and when
    [preInitSetup] returns, all of them were run. *)
Theorem commands_run_in_order :
  forall (w : World) (context : ref) (s : State),
    (exists done rest,
       pipeline_commands w (app (options (heap s context))) = done ++ rest
       /\ executed (trace (final (preInitSetup w context s)))
          = executed (trace s) ++ done)
    /\ (forall v s', preInitSetup w context s = Returned v s' ->
        executed (trace s')
        = executed (trace s)
          ++ pipeline_commands w (app (options (heap s context)))).
Proof.
  intros w context s.
  pose proof (preInitSetup_commands w context s) as Hsat.
  unfold satisfies in Hsat. split.
  - destruct (preInitSetup w context s) as [v s'|e s'|c s']; simpl;
      try exact Hsat.
    apply ran_all. exact Hsat.
  - intros v s' Hret. rewrite Hret in Hsat. exact Hsat.
Qed.

Lemma commands_run_in_order_witness :
  exists s',
    preInitSetup world_all_well 0 (fresh_state (Some sampleRepo) true)
    = Returned 0 s'
    /\ executed (trace s')
       = ["git ls-remote https://github.com/x/y.git";
          "git clone https://github.com/x/y.git ."; "npm install"].
Proof.
  assert (Hret :
    preInitSetup world_all_well 0 (fresh_state (Some sampleRepo) true)
    = Returned 0
        (final (preInitSetup world_all_well 0
                  (fresh_state (Some sampleRepo) true))))
    by (vm_compute; reflexivity).
  destruct (commands_run_in_order world_all_well 0
              (fresh_state (Some sampleRepo) true)) as [_ Hall].
  eexists. split; [exact Hret|].
  rewrite (Hall _ _ Hret). vm_compute. reflexivity.
Defined.

(** ** The exit code of the process *)

Lemma emitted_errors_count (t : list Event) :
  List.length (emitted_errors t)
  = count_occ Z.eq_dec (telemetry_codes t) 1%Z.
Proof.
  induction t as [|ev t IH]; simpl; [reflexivity|].
  destruct ev; simpl; try exact IH. rewrite IH. reflexivity.
Qed.

Lemma count_occ_ones (ones : list Z) :
  Forall (eq 1%Z) ones -> count_occ Z.eq_dec ones 1%Z = List.length ones.
Proof.
  induction 1 as [|x l Hx _ IH]; simpl; [reflexivity|].
  subst x. simpl. rewrite IH. reflexivity.
Qed.

(** X9: in a process with no exit queued beforehand, exit code 0 is the
    first in the tick queue only if [preInitSetup] returned with the
    quickstart flag set and emitted no error to telemetry during the run;
    and as soon as one error was emitted, the first exit queued has code
    1, whatever the quickstart branch does afterwards. *)
Theorem exit_code_0_means_no_failure :
  forall (w : World) (context : ref) (s : State),
    nextTickQueue s = [] ->
    (hd_error (nextTickQueue (final (preInitSetup w context s))) = Some 0%Z ->
     List.length (emitted_errors (trace (final (preInitSetup w context s))))
     = List.length (emitted_errors (trace s))
     /\ quickstart (options (heap s context)) = true
     /\ exists s', preInitSetup w context s = Returned context s')
    /\ (List.length (emitted_errors (trace s))
        < List.length
            (emitted_errors (trace (final (preInitSetup w context s)))) ->
        hd_error (nextTickQueue (final (preInitSetup w context s)))
        = Some 1%Z).
Proof.
  intros w context s Hq.
  destruct (preInitSetup_exit_shape w context s)
    as (ones & zero & Hqueue & Htel & Hones & Hzero).
  rewrite Hq in Hqueue. simpl in Hqueue. rewrite Hqueue.
  repeat rewrite emitted_errors_count. rewrite Htel.
  repeat rewrite count_occ_app. rewrite (count_occ_ones Hones).
  destruct ones as [|one ones].
  - simpl. split.
    + intros Hhd.
      destruct Hzero as [->|(-> & Hquick & Hret)]; [discriminate Hhd|].
      simpl. split; [lia|]. split; assumption.
    + destruct Hzero as [->|(-> & _)]; simpl; lia.
  - inversion Hones as [|x l Hone Hrest]; subst. simpl. split.
    + intros Hhd. discriminate Hhd.
    + intros _. reflexivity.
Qed.

Lemma exit_code_0_means_no_failure_witness :
  List.length
    (emitted_errors
       (trace (final (preInitSetup world_all_well 0
                        (fresh_state None true)))))
  = 0
  /\ hd_error
       (nextTickQueue (final (preInitSetup world_unreachable_remote 0
                                (fresh_state (Some "not a url") true))))
     = Some 1%Z.
Proof.
  split.
  - apply (proj1 (exit_code_0_means_no_failure world_all_well 0
                    (fresh_state None true) eq_refl)).
    vm_compute. reflexivity.
  - apply (proj2 (exit_code_0_means_no_failure world_unreachable_remote 0
                    (fresh_state (Some "not a url") true) eq_refl)).
    vm_compute. lia.
Defined.

(** ** cloneRepo, case by case *)

(** X10: the five ways [cloneRepo] ends.  When the working directory
    cannot be listed, the error of the listing reaches the caller and
    nothing has been printed, emitted, queued or run.  Otherwise
    [cloneRepo] returns.  In an empty directory a clone that succeeds
    leaves nothing but itself, and one that fails is emitted and followed
    by one queued exit.  In a directory that is not empty the message is
    printed, the error emitted and an exit queued before the clone, which
    is run all the same; when it fails a second error is emitted and a
    second exit queued. *)
Theorem cloneRepo_case_by_case :
  forall (w : World) (context : ref) (repoUrl : string) (s : State),
    let clone := execSync (cloneCommand repoUrl) stdio_inherit in
    let refused :=
      [print_error nonEmptyDirectoryMessage;
       usageData_emitError (NonEmptyDirectoryError nonEmptyDirectoryMessage);
       exit_scheduled 1] in
    let failed :=
      [usageData_emitError (ExecError (cloneCommand repoUrl));
       exit_scheduled 1] in
    let after (evs : list Event) (exits : list Z) :=
      Returned tt
        (mkState (heap s) (trace s ++ evs) (nextTickQueue s ++ exits)
           (awaits s) (FeatureFlags_isInitialized s)) in
    (fs_readdirSync w (process_cwd w) = None ->
     cloneRepo w context repoUrl s = Thrown (FsError (process_cwd w)) s)
    /\ (fs_readdirSync w (process_cwd w) = Some [] ->
        execSync_fails w (cloneCommand repoUrl) = false ->
        cloneRepo w context repoUrl s = after [clone] [])
    /\ (fs_readdirSync w (process_cwd w) = Some [] ->
        execSync_fails w (cloneCommand repoUrl) = true ->
        cloneRepo w context repoUrl s = after (clone :: failed) [1%Z])
    /\ (forall files,
          fs_readdirSync w (process_cwd w) = Some files ->
          files <> [] ->
          execSync_fails w (cloneCommand repoUrl) = false ->
          cloneRepo w context repoUrl s = after (refused ++ [clone]) [1%Z])
    /\ (forall files,
          fs_readdirSync w (process_cwd w) = Some files ->
          files <> [] ->
          execSync_fails w (cloneCommand repoUrl) = true ->
          cloneRepo w context repoUrl s
          = after (refused ++ clone :: failed) [1%Z; 1%Z]).
Proof.
  intros w context repoUrl s clone refused failed after.
  subst clone refused failed after.
  unfold cloneRepo, cloneCommand, fs_readdirSync_call. unfold_proc.
  split; [intros Hlist; rewrite Hlist; reflexivity|].
  split; [intros Hlist Hclone; rewrite Hlist; simpl; rewrite Hclone; simpl;
          repeat rewrite app_nil_r; repeat rewrite <- app_assoc;
          reflexivity|].
  split; [intros Hlist Hclone; rewrite Hlist; simpl; rewrite Hclone; simpl;
          repeat rewrite app_nil_r; repeat rewrite <- app_assoc;
          reflexivity|].
  split; intros files Hlist Hne Hclone; rewrite Hlist; simpl;
    (destruct files as [|f files]; [contradiction Hne; reflexivity|]);
    simpl; rewrite Hclone; simpl; repeat rewrite <- app_assoc; reflexivity.
Qed.

Lemma cloneRepo_case_by_case_witness :
  cloneRepo world_unlistable_directory 0 sampleRepo
    (fresh_state (Some sampleRepo) false)
  = Thrown (FsError "/home/dev/gone") (fresh_state (Some sampleRepo) false)
  /\ trace (final (cloneRepo world_all_well 0 sampleRepo
                     (fresh_state (Some sampleRepo) false)))
     = [execSync "git clone https://github.com/x/y.git ." stdio_inherit]
  /\ nextTickQueue
       (final (cloneRepo world_clone_fails 0 sampleRepo
                 (fresh_state (Some sampleRepo) false)))
     = [1%Z]
  /\ nextTickQueue
       (final (cloneRepo world_occupied_directory 0 sampleRepo
                 (fresh_state (Some sampleRepo) false)))
     = [1%Z; 1%Z].
Proof.
  split; [|split; [|split]].
  - apply (proj1 (cloneRepo_case_by_case world_unlistable_directory 0
                    sampleRepo (fresh_state (Some sampleRepo) false))).
    reflexivity.
  - rewrite (proj1 (proj2 (cloneRepo_case_by_case world_all_well 0
                             sampleRepo
                             (fresh_state (Some sampleRepo) false))));
      reflexivity.
  - rewrite (proj1 (proj2 (proj2 (cloneRepo_case_by_case world_clone_fails
                                    0 sampleRepo
                                    (fresh_state (Some sampleRepo) false)))));
      reflexivity.
  - rewrite (proj2 (proj2 (proj2 (proj2 (cloneRepo_case_by_case
                                           world_occupied_directory 0
                                           sampleRepo
                                           (fresh_state (Some sampleRepo)
                                              false)))))
               ["package.json"]);
      [reflexivity | reflexivity | discriminate | reflexivity].
Defined.
